(** * TinyPlayer and BackgroundKeyboardListener: a shallow embedding

    Source files modelled here:
    - [src/listener/player.py]  (class [TinyPlayer])
    - [src/listener/main.py]    (class [BackgroundKeyboardListener] and the
                                 example entry point)

    Python objects are records, the dict [_cache] is a [gmap], the list
    [_cache_keys] is a [list], and every method is a computation in a small
    state / exception / trace monad [Py].  The outside world (file system,
    audio host, key-event callbacks) enters as explicit parameters. *)

From stdpp Require Import base option list gmap strings sorting.
From Stdlib Require Import ZArith.
From Stdlib.Strings Require Import Byte Ascii.

Local Open Scope Z_scope.
Set Warnings "-clear-no-such-hyp".

(** ** Python exceptions and outcomes *)

(** [LibError] stands for whatever the [wave] and [pyaudio] libraries raise;
    [SystemExit] is what the builtin [exit()] raises. *)
Inductive exn : Type :=
| KeyError (key : string)
| ValueError (msg : string)
| IndexError (msg : string)
| AttributeError (msg : string)
| LibError (msg : string)
| SystemExit (code : option Z).

(** [isinstance(e, Exception)]: [SystemExit] derives from [BaseException]
    only, so [except Exception] lets it through. *)
Definition is_Exception (e : exn) : bool :=
  match e with SystemExit _ => false | _ => true end.

(** [str(e)] as used by the f-strings of the source. *)
Definition exn_str (e : exn) : string :=
  match e with
  | KeyError k => "'" +:+ k +:+ "'"
  | ValueError m | IndexError m | AttributeError m | LibError m => m
  | SystemExit _ => ""
  end.

Inductive outcome (A : Type) : Type :=
| Return (a : A)
| Raise (e : exn).
Arguments Return {A} a.
Arguments Raise {A} e.

(** ** The outside world *)

(** The tuple stored in the cache:
    [(audio_data, channels, sample_width, framerate)]. *)
Definition payload : Type := (list byte * Z * Z * Z)%type.

Inductive file_status : Type :=
| Missing                      (* os.path.exists is False *)
| Unreadable (why : string)    (* exists, but wave.open / reading raises *)
| Wave (w : payload).          (* a readable PCM wave file *)

Definition filesystem : Type := string → file_status.

(** The PyAudio host: each operation either succeeds or fails with an error
    message; PyAudio reports failures as [ValueError] and [OSError], which
    [LibError] stands for. *)
Record audio_host : Type := AudioHost {
  get_format_from_width : Z → string + Z;
  pa_open : Z → Z → Z → option string;
  stream_write : list byte → option string;
  stream_stop_stream : option string;
  stream_close : option string;
  pa_terminate : option string
}.

(** A pynput key: a [KeyCode] carries a [char] attribute (possibly [None]),
    a member of the [Key] enumeration has none. *)
Inductive key : Type :=
| KeyCode (char : option string)
| SpecialKey (name : string).

(** ** Observable events *)

Inductive event : Type :=
(* file system *)
| EvExists (path : string)
| EvWaveOpen (path : string)
(* console *)
| EvPrint (msg : string)
(* self._lock *)
| EvAcquire
| EvRelease
(* mutations of self._cache_keys and self._cache *)
| EvKeysRemove (path : string)
| EvKeysAppend (path : string)
| EvKeysPop (path : string)
| EvKeysClear
| EvCacheDel (path : string)
| EvCacheSet (path : string)
| EvCacheClear
(* audio device *)
| EvPaOpen (format channels rate : Z)
| EvStreamWrite (data : list byte)
| EvStreamStop
| EvStreamClose
| EvPaTerminate
(* listener *)
| EvLogInfo (msg : string)
| EvCallback (name : string) (k : key) (event_type : string)
| EvListenerJoin.

Definition is_wave_open (e : event) : bool :=
  match e with EvWaveOpen _ => true | _ => false end.

Definition is_device_event (e : event) : bool :=
  match e with
  | EvPaOpen _ _ _ | EvStreamWrite _ | EvStreamStop | EvStreamClose
  | EvPaTerminate => true
  | _ => false
  end.

Definition is_mutation (e : event) : bool :=
  match e with
  | EvKeysRemove _ | EvKeysAppend _ | EvKeysPop _ | EvKeysClear
  | EvCacheDel _ | EvCacheSet _ | EvCacheClear => true
  | _ => false
  end.

(** ** The monad: state, exceptions, and an event trace *)

Definition Py (S A : Type) : Type := S → outcome A * S * list event.

Definition py_ret {S A} (a : A) : Py S A := λ s, (Return a, s, []).

Definition py_bind {S A B} (f : A → Py S B) (c : Py S A) : Py S B :=
  λ s,
    match c s with
    | (Return a, s1, t1) =>
        match f a s1 with
        | (r, s2, t2) => (r, s2, t1 ++ t2)
        end
    | (Raise e, s1, t1) => (Raise e, s1, t1)
    end.

#[global] Instance Py_ret {S} : MRet (Py S) := @py_ret S.
#[global] Instance Py_bind {S} : MBind (Py S) := @py_bind S.

Definition raise {S A} (e : exn) : Py S A := λ s, (Raise e, s, []).
Definition emit {S} (ev : event) : Py S () := λ s, (Return (), s, [ev]).
Definition get {S} : Py S S := λ s, (Return s, s, []).
Definition put {S} (s' : S) : Py S () := λ _, (Return (), s', []).

(** [try: body  except Exception as e: handler e] *)
Definition try_except {S A} (body : Py S A) (handler : exn → Py S A)
  : Py S A :=
  λ s,
    match body s with
    | (Return a, s1, t1) => (Return a, s1, t1)
    | (Raise e, s1, t1) =>
        if is_Exception e then
          match handler e s1 with
          | (r, s2, t2) => (r, s2, t1 ++ t2)
          end
        else (Raise e, s1, t1)
    end.

(** [try: body  except: handler] -- a bare [except] catches everything. *)
Definition try_except_bare {S A} (body : Py S A) (handler : Py S A)
  : Py S A :=
  λ s,
    match body s with
    | (Return a, s1, t1) => (Return a, s1, t1)
    | (Raise _, s1, t1) =>
        match handler s1 with
        | (r, s2, t2) => (r, s2, t1 ++ t2)
        end
    end.

(** [try: body  except AttributeError: handler] *)
Definition try_except_AttributeError {S A} (body : Py S A) (handler : Py S A)
  : Py S A :=
  λ s,
    match body s with
    | (Raise (AttributeError _), s1, t1) =>
        match handler s1 with
        | (r, s2, t2) => (r, s2, t1 ++ t2)
        end
    | r => r
    end.

(** [for x in xs: body x] *)
Fixpoint for_each {S A} (xs : list A) (body : A → Py S ()) : Py S () :=
  match xs with
  | [] => py_ret ()
  | x :: xs' => py_bind (λ _, for_each xs' body) (body x)
  end.

(** Run a computation on one component of a larger state. *)
Definition zoom {S T A} (proj : T → S) (upd : S → T → T) (c : Py S A)
  : Py T A :=
  λ t,
    match c (proj t) with
    | (r, s1, tr) => (r, upd s1 t, tr)
    end.

(** [with self._lock: body] -- the lock is released on every exit path. *)
Definition with_lock {S A} (body : Py S A) : Py S A :=
  λ s,
    match body s with
    | (r, s1, t1) => (r, s1, EvAcquire :: t1 ++ [EvRelease])
    end.

Definition print {S} (msg : string) : Py S () := emit (EvPrint msg).

(** Projections of a finished run. *)
Definition result_of {A S} (r : outcome A * S * list event) : outcome A :=
  r.1.1.
Definition state_of {A S} (r : outcome A * S * list event) : S := r.1.2.
Definition trace_of {A S} (r : outcome A * S * list event) : list event :=
  r.2.

(** ** player.py: class TinyPlayer *)

Record TinyPlayer : Type := mkTinyPlayer {
  _cache : gmap string payload;     (* filename -> audio data *)
  _cache_keys : list string;        (* For LRU tracking *)
  _cache_size : Z
}.

(** [TinyPlayer.__init__(cache_size)] *)
Definition TinyPlayer_init (cache_size : Z) : TinyPlayer :=
  {| _cache := ∅; _cache_keys := []; _cache_size := cache_size |}.

Definition set_cache (c : gmap string payload) (self : TinyPlayer)
  : TinyPlayer :=
  {| _cache := c; _cache_keys := _cache_keys self;
     _cache_size := _cache_size self |}.

Definition set_cache_keys (ks : list string) (self : TinyPlayer)
  : TinyPlayer :=
  {| _cache := _cache self; _cache_keys := ks;
     _cache_size := _cache_size self |}.

(** Python's [list.remove(x)]: drops the first occurrence, or fails. *)
Fixpoint list_remove (x : string) (l : list string) : option (list string) :=
  match l with
  | [] => None
  | y :: l' =>
      if decide (x = y) then Some l' else (y ::.) <$> list_remove x l'
  end.

(** [os.path.exists(filepath)] *)
Definition path_exists (fs : filesystem) (filepath : string)
  : Py TinyPlayer bool :=
  emit (EvExists filepath);;
  mret (match fs filepath with Missing => false | _ => true end).

(** [with wave.open(filepath, 'rb') as wf: ...] together with the four reads
    from [wf]. *)
Definition wave_read (fs : filesystem) (filepath : string)
  : Py TinyPlayer payload :=
  emit (EvWaveOpen filepath);;
  match fs filepath with
  | Wave w => mret w
  | Unreadable why => raise (LibError why)
  | Missing => raise (LibError ("No such file or directory: " +:+ filepath))
  end.

(** [filepath in self._cache] *)
Definition cache_contains (filepath : string) : Py TinyPlayer bool :=
  self ← get;
  mret (bool_decide (is_Some (_cache self !! filepath))).

(** [self._cache[filepath]] *)
Definition cache_getitem (filepath : string) : Py TinyPlayer payload :=
  self ← get;
  match _cache self !! filepath with
  | Some v => mret v
  | None => raise (KeyError filepath)
  end.

(** [self._cache[filepath] = v] *)
Definition cache_setitem (filepath : string) (v : payload)
  : Py TinyPlayer () :=
  self ← get;
  put (set_cache (<[filepath := v]> (_cache self)) self);;
  emit (EvCacheSet filepath).

(** [del self._cache[key]] *)
Definition cache_delitem (key : string) : Py TinyPlayer () :=
  self ← get;
  match _cache self !! key with
  | Some _ =>
      put (set_cache (delete key (_cache self)) self);;
      emit (EvCacheDel key)
  | None => raise (KeyError key)
  end.

(** [self._cache_keys.remove(filepath)] *)
Definition keys_remove (filepath : string) : Py TinyPlayer () :=
  self ← get;
  match list_remove filepath (_cache_keys self) with
  | Some ks => put (set_cache_keys ks self);; emit (EvKeysRemove filepath)
  | None => raise (ValueError "list.remove(x): x not in list")
  end.

(** [self._cache_keys.append(filepath)] *)
Definition keys_append (filepath : string) : Py TinyPlayer () :=
  self ← get;
  put (set_cache_keys (_cache_keys self ++ [filepath]) self);;
  emit (EvKeysAppend filepath).

(** [self._cache_keys.pop(0)] *)
Definition keys_pop0 : Py TinyPlayer string :=
  self ← get;
  match _cache_keys self with
  | oldest :: ks =>
      put (set_cache_keys ks self);; emit (EvKeysPop oldest);; mret oldest
  | [] => raise (IndexError "pop from empty list")
  end.

(** [len(self._cache_keys) >= self._cache_size and self._cache_keys] *)
Definition cache_is_full : Py TinyPlayer bool :=
  self ← get;
  mret ((_cache_size self <=? Z.of_nat (length (_cache_keys self)))
        && bool_decide (_cache_keys self ≠ [])).

(** [TinyPlayer.load_sound] *)
Definition load_sound (fs : filesystem) (filepath : string)
  : Py TinyPlayer bool :=
  found ← path_exists fs filepath;
  if negb found then
    print ("File not found: " +:+ filepath);;
    mret false
  else
    cached ← cache_contains filepath;
    if (cached : bool) then
      (* Move to end of LRU list *)
      keys_remove filepath;;
      keys_append filepath;;
      mret true
    else
      try_except
        ('(audio_data, channels, sample_width, framerate) ←
           wave_read fs filepath;
         (* Store in cache with LRU management *)
         with_lock
           (full ← cache_is_full;
            (if (full : bool) then oldest ← keys_pop0; cache_delitem oldest
             else mret ());;
            cache_setitem filepath
              (audio_data, channels, sample_width, framerate);;
            keys_append filepath);;
         mret true)
        (λ e,
           print ("Error loading sound: " +:+ exn_str e);;
           mret false).

(** A call into the audio host: the attempt is observable, then the host
    either returns or raises. *)
Definition host_call (ev : event) (res : option string) : Py TinyPlayer () :=
  emit ev;;
  match res with
  | None => mret ()
  | Some msg => raise (LibError msg)
  end.

(** [self.pa.get_format_from_width(width)] *)
Definition format_from_width (host : audio_host) (width : Z)
  : Py TinyPlayer Z :=
  match get_format_from_width host width with
  | inr format => mret format
  | inl msg => raise (LibError msg)
  end.

(** [TinyPlayer.play] *)
Definition play (host : audio_host) (fs : filesystem) (filepath : string)
  : Py TinyPlayer () :=
  cached ← cache_contains filepath;
  (* not filepath in self._cache and not self.load_sound(filepath) *)
  skip ←
    (if negb cached then loaded ← load_sound fs filepath; mret (negb loaded)
     else mret false);
  if (skip : bool) then mret ()
  else
    '(data, channels, width, rate) ← cache_getitem filepath;
    try_except
      (format ← format_from_width host width;
       host_call (EvPaOpen format channels rate)
                 (pa_open host format channels rate);;
       host_call (EvStreamWrite data) (stream_write host data);;
       host_call EvStreamStop (stream_stop_stream host);;
       host_call EvStreamClose (stream_close host))
      (λ e, print ("Error playing sound: " +:+ exn_str e)).

(** [TinyPlayer.cleanup] *)
Definition cleanup (host : audio_host) : Py TinyPlayer () :=
  (self ← get; put (set_cache ∅ self);; emit EvCacheClear);;
  (self ← get; put (set_cache_keys [] self);; emit EvKeysClear);;
  try_except_bare
    (host_call EvPaTerminate (pa_terminate host))
    (mret ()).

(** ** main.py: class BackgroundKeyboardListener *)

(** A registered callback: a Python callable of shape [(key, event_type)].
    Calling it is observable; it then returns or raises. *)
Record callback : Type := Callback {
  cb_name : string;
  cb_body : key → string → option exn
}.

Record BackgroundKeyboardListener : Type := mkListener {
  running : bool;
  callbacks : list callback;
  logger : option string
}.

(** [BackgroundKeyboardListener.__init__(log_file)]; [if log_file:] is
    false for [None] and for the empty string. *)
Definition BackgroundKeyboardListener_init (log_file : option string)
  : BackgroundKeyboardListener :=
  {| running := false;
     callbacks := [];
     logger := match log_file with
               | Some f => if decide (f = "") then None else Some f
               | None => None
               end |}.

(** [BackgroundKeyboardListener.add_callback] *)
Definition add_callback (cb : callback)
  : Py BackgroundKeyboardListener () :=
  self ← get;
  put {| running := running self;
         callbacks := callbacks self ++ [cb];
         logger := logger self |}.

(** [key.char] *)
Definition key_char_attr {S} (k : key) : Py S (option string) :=
  match k with
  | KeyCode c => mret c
  | SpecialKey _ => raise (AttributeError "char")
  end.

(** [str(key)] for a member of the [Key] enumeration, and the rendering of
    an optional character inside an f-string. *)
Definition key_str (k : key) : string :=
  match k with
  | KeyCode (Some c) => "'" +:+ c +:+ "'"
  | KeyCode None => "None"
  | SpecialKey name => "Key." +:+ name
  end.

Definition fmt_char (c : option string) : string :=
  match c with Some s => s | None => "None" end.

(** [callback(key, event_type)] *)
Definition invoke (cb : callback) (k : key) (event_type : string)
  : Py BackgroundKeyboardListener () :=
  emit (EvCallback (cb_name cb) k event_type);;
  match cb_body cb k event_type with
  | None => mret ()
  | Some e => raise e
  end.

(** [BackgroundKeyboardListener._on_press] *)
Definition _on_press (k : key) : Py BackgroundKeyboardListener () :=
  key_char ←
    try_except_AttributeError
      (c ← key_char_attr k; mret (fmt_char c))
      (mret (key_str k));
  self ← get;
  match logger self with
  | Some _ => emit (EvLogInfo ("Key pressed: " +:+ key_char))
  | None => mret ()
  end;;
  for_each (callbacks self) (λ cb, invoke cb k "press").

(** [BackgroundKeyboardListener.start], lines 69-78: the guard, the flag,
    and entering [listener.join()], where control passes to pynput's
    capture loop. *)
Definition start : Py BackgroundKeyboardListener () :=
  self ← get;
  if running self then mret ()
  else
    put {| running := true;
           callbacks := callbacks self;
           logger := logger self |};;
    emit EvListenerJoin.

(** ** main.py: the example entry point *)

Record App : Type := mkApp {
  player : TinyPlayer;
  listener : option BackgroundKeyboardListener
}.

Definition on_player {A} (c : Py TinyPlayer A) : Py App A :=
  zoom player (λ p a, {| player := p; listener := listener a |}) c.

(** Operations on the [listener] variable, once it is bound. *)
Definition on_listener (c : Py BackgroundKeyboardListener ()) : Py App () :=
  λ a,
    match listener a with
    | Some l =>
        match c l with
        | (r, l', tr) => (r, {| player := player a; listener := Some l' |}, tr)
        end
    | None => (Raise (AttributeError "listener"), a, [])
    end.

(** [os.path.join] of a directory with relative components (POSIX). *)
Definition ends_with_slash (s : string) : bool :=
  match reverse (String.list_ascii_of_string s) with
  | c :: _ => bool_decide (c = "/"%char)
  | [] => false
  end.

Definition path_join (a b : string) : string :=
  if bool_decide (a = "") || ends_with_slash a then a +:+ b
  else a +:+ "/" +:+ b.

Definition sound_path (here : string) : string :=
  path_join (path_join (path_join here "..") "sounds")
            "mixkit-hard-typewriter-click-1119.wav".

(** A callback built by [TinyPlayer.play_for_key]: it only spawns a daemon
    thread and never raises. *)
Definition play_for_key (filepath : string) : callback :=
  {| cb_name := "play_for_key:" +:+ filepath;
     cb_body := λ _ _, None |}.

(** The builtin [exit(code)] *)
Definition exit {S A} (code : option Z) : Py S A := raise (SystemExit code).

(** The [__main__] block of main.py, lines 104-116, with [here] standing for
    [os.path.dirname(__file__)]. *)
Definition main (fs : filesystem) (here : string) : Py App () :=
  let sound_path := sound_path here in
  loaded ← on_player (load_sound fs sound_path);
  if (loaded : bool) then
    print "Sound loaded successfully";;
    (a ← get;
     put {| player := player a;
            listener :=
              Some (BackgroundKeyboardListener_init
                      (Some "keyboard_log.txt")) |});;
    on_listener (add_callback (play_for_key sound_path));;
    on_listener start
  else
    print "Failed to load sound";;
    exit None.

(** The state [__main__] starts from: [TinyPlayer(cache_size=100)]. *)
Definition App_init : App :=
  {| player := TinyPlayer_init 100; listener := None |}.

(** Exit status of the interpreter for the outcome of [main]: [None] when
    [main] came back normally, that is, the process lives on inside the
    listener; [SystemExit(None)] is status 0, [SystemExit(n)] is [n], any
    other uncaught exception is status 1. *)
Definition exit_status (r : outcome ()) : option Z :=
  match r with
  | Return _ => None
  | Raise (SystemExit None) => Some 0
  | Raise (SystemExit (Some n)) => Some n
  | Raise _ => Some 1
  end.

(** ** Trace predicates used by the statements *)

(** Number of times the file was opened and read. *)
Definition wave_opens (t : list event) : nat :=
  length (filter (λ e, is_wave_open e = true) t).

(** No interaction with the audio device. *)
Definition no_device (t : list event) : Prop :=
  Forall (λ e, is_device_event e = false) t.

(** Scan a trace with the lock state: every mutation must find the lock
    held. *)
Fixpoint guarded_from (held : bool) (t : list event) : bool :=
  match t with
  | [] => true
  | EvAcquire :: t' => guarded_from true t'
  | EvRelease :: t' => guarded_from false t'
  | e :: t' => (negb (is_mutation e) || held) && guarded_from held t'
  end.

Definition mutations_guarded (t : list event) : bool := guarded_from false t.

(** The lock state at the end of a trace. *)
Fixpoint lock_after (held : bool) (t : list event) : bool :=
  match t with
  | [] => held
  | EvAcquire :: t' => lock_after true t'
  | EvRelease :: t' => lock_after false t'
  | _ :: t' => lock_after held t'
  end.

(** The entry thrown out of the cache during a call, if any. *)
Fixpoint evicted (t : list event) : option string :=
  match t with
  | [] => None
  | EvCacheDel p :: _ => Some p
  | _ :: t' => evicted t'
  end.

(** ** Well-formed players *)

(** The keys of the dict are the elements of the recency list, which has no
    duplicates. *)
Definition wf (self : TinyPlayer) : Prop :=
  dom (_cache self) = list_to_set (_cache_keys self)
  ∧ NoDup (_cache_keys self).

Definition cached (self : TinyPlayer) (p : string) : Prop :=
  is_Some (_cache self !! p).

(** The test the source makes before evicting. *)
Definition is_full (self : TinyPlayer) : bool :=
  (_cache_size self <=? Z.of_nat (length (_cache_keys self)))
  && bool_decide (_cache_keys self ≠ []).

(** ** Sequences of [load_sound] calls *)

(** One call: the file system as it is at that moment, and the path. *)
Definition call : Type := (filesystem * string)%type.

(** The access log lists, newest first, the paths of the calls that
    succeeded (a fresh load or a hit). *)
Definition log_access (r : outcome bool) (p : string) (log : list string)
  : list string :=
  match r with
  | Return true => p :: log
  | _ => log
  end.

Fixpoint run_loads (calls : list call) (self : TinyPlayer)
  (log : list string) : TinyPlayer * list string :=
  match calls with
  | [] => (self, log)
  | (fs, p) :: rest =>
      let r := load_sound fs p self in
      run_loads rest (state_of r) (log_access (result_of r) p log)
  end.

(** Time of the last access to [p]: accesses are numbered from 1 in
    chronological order, 0 means never. *)
Fixpoint last_access (log : list string) (p : string) : nat :=
  match log with
  | [] => 0%nat
  | q :: older =>
      if decide (p = q) then S (length older) else last_access older p
  end.

(** Unfolding of the monad and of the primitive operations. *)
Ltac py_unfold :=
  unfold path_exists, wave_read, cache_contains, cache_getitem,
    cache_setitem, cache_delitem, keys_remove, keys_append, keys_pop0,
    cache_is_full, host_call, format_from_width, print, emit, get, put,
    raise, with_lock, try_except, try_except_bare, mbind, mret, Py_bind,
    Py_ret, py_bind, py_ret.

(** ** The paths through [load_sound], invariants, and example worlds *)

(** Every run of [load_sound] follows exactly one of these paths. *)
Inductive load_case (fs : filesystem) (p : string) (self : TinyPlayer)
  : outcome bool * TinyPlayer * list event → Prop :=
| Load_missing :
    fs p = Missing →
    load_case fs p self
      (Return false, self, [EvExists p; EvPrint ("File not found: " +:+ p)])
| Load_hit ks :
    fs p ≠ Missing → cached self p →
    list_remove p (_cache_keys self) = Some ks →
    load_case fs p self
      (Return true, set_cache_keys (ks ++ [p]) self,
       [EvExists p; EvKeysRemove p; EvKeysAppend p])
| Load_hit_stale :
    fs p ≠ Missing → cached self p →
    list_remove p (_cache_keys self) = None →
    load_case fs p self
      (Raise (ValueError "list.remove(x): x not in list"), self,
       [EvExists p])
| Load_unreadable why :
    fs p = Unreadable why → _cache self !! p = None →
    load_case fs p self
      (Return false, self,
       [EvExists p; EvWaveOpen p;
        EvPrint ("Error loading sound: " +:+ why)])
| Load_insert w :
    fs p = Wave w → _cache self !! p = None → is_full self = false →
    load_case fs p self
      (Return true,
       {| _cache := <[p := w]> (_cache self);
          _cache_keys := _cache_keys self ++ [p];
          _cache_size := _cache_size self |},
       [EvExists p; EvWaveOpen p; EvAcquire; EvCacheSet p; EvKeysAppend p;
        EvRelease])
| Load_evict w oldest ks :
    fs p = Wave w → _cache self !! p = None → is_full self = true →
    _cache_keys self = oldest :: ks → cached self oldest →
    load_case fs p self
      (Return true,
       {| _cache := <[p := w]> (delete oldest (_cache self));
          _cache_keys := ks ++ [p];
          _cache_size := _cache_size self |},
       [EvExists p; EvWaveOpen p; EvAcquire; EvKeysPop oldest;
        EvCacheDel oldest; EvCacheSet p; EvKeysAppend p; EvRelease])
| Load_evict_stale w oldest ks :
    fs p = Wave w → _cache self !! p = None → is_full self = true →
    _cache_keys self = oldest :: ks → _cache self !! oldest = None →
    load_case fs p self
      (Return false, set_cache_keys ks self,
       [EvExists p; EvWaveOpen p; EvAcquire; EvKeysPop oldest; EvRelease;
        EvPrint ("Error loading sound: " +:+ exn_str (KeyError oldest))]).

Definition within_capacity (self : TinyPlayer) : Prop :=
  Z.of_nat (length (_cache_keys self)) ≤ _cache_size self.

Definition older_in (log : list string) (a b : string) : Prop :=
  (last_access log a < last_access log b)%nat.

Definition recency_sorted (log : list string) (keys : list string) : Prop :=
  StronglySorted (older_in log) keys.

Record reachable_inv (n : Z) (self : TinyPlayer) (log : list string)
  : Prop := ReachableInv {
  inv_size : _cache_size self = n;
  inv_wf : wf self;
  inv_capacity : within_capacity self;
  inv_recency : recency_sorted log (_cache_keys self)
}.

(** The [try] block of [play], named so that it can be reasoned about
    separately. *)
Definition play_stream (host : audio_host) (entry : payload)
  : Py TinyPlayer () :=
  let '(data, channels, width, rate) := entry in
  try_except
    (format ← format_from_width host width;
     host_call (EvPaOpen format channels rate)
               (pa_open host format channels rate);;
     host_call (EvStreamWrite data) (stream_write host data);;
     host_call EvStreamStop (stream_stop_stream host);;
     host_call EvStreamClose (stream_close host))
    (λ e, print ("Error playing sound: " +:+ exn_str e)).

Definition quiet (t : list event) : Prop :=
  Forall (λ e, is_mutation e = false) t.

Definition beep : payload := ([x52; x49; x46; x46]%list, 1, 2, 44100).
Definition all_waves : filesystem := λ _, Wave beep.
Definition no_files : filesystem := λ _, Missing.
Definition silent_host : audio_host :=
  {| get_format_from_width := λ w, inr (8 / w);
     pa_open := λ _ _ _, None;
     stream_write := λ _, None;
     stream_stop_stream := None;
     stream_close := None;
     pa_terminate := None |}.
Definition broken_host : audio_host :=
  {| get_format_from_width := λ w, inr (8 / w);
     pa_open := λ _ _ _, Some "Invalid output device";
     stream_write := λ _, Some "Stream closed";
     stream_stop_stream := Some "Stream not open";
     stream_close := Some "Stream not open";
     pa_terminate := Some "PortAudio not initialized" |}.

(** The player after [load_sound("a.wav")] and [load_sound("b.wav")] with
    capacity 2. *)
Definition player_ab : TinyPlayer :=
  (run_loads [(all_waves, "a.wav"); (all_waves, "b.wav")]
     (TinyPlayer_init 2) []).1.

(** The state both concrete scenarios pass through: capacity 2, a.wav loaded
    and then b.wav. *)
Definition state_ab (wa wb : payload) : TinyPlayer :=
  {| _cache := <["b.wav" := wb]> (<["a.wav" := wa]> ∅);
     _cache_keys := ["a.wav"; "b.wav"];
     _cache_size := 2 |}.

(** Events of a load that fails on the file: existence test, open, print. *)
Definition probing (e : event) : Prop :=
  match e with
  | EvExists _ | EvWaveOpen _ | EvPrint _ => True
  | _ => False
  end.

(** The callbacks a trace shows as called, with their arguments. *)
Definition invoked (t : list event) : list (string * key * string) :=
  omap (λ e, match e with
             | EvCallback n k et => Some (n, k, et)
             | _ => None
             end) t.

(** Registering callbacks one after the other. *)
Definition register_all (cbs : list callback)
    (l : BackgroundKeyboardListener) : BackgroundKeyboardListener :=
  foldl (λ l cb, state_of (add_callback cb l)) l cbs.

Definition succeeds (k : key) (event_type : string) (cb : callback) : Prop :=
  cb_body cb k event_type = None.

Definition call_record (k : key) (event_type : string) (cb : callback)
  : string * key * string :=
  (cb_name cb, k, event_type).

(** Three callbacks, the first of which raises. *)
Definition cb_first : callback :=
  {| cb_name := "C1"; cb_body := λ _ _, Some (ValueError "boom") |}.
Definition cb_second : callback := {| cb_name := "C2"; cb_body := λ _ _, None |}.
Definition cb_third : callback := {| cb_name := "C3"; cb_body := λ _ _, None |}.

Definition key_a : key := KeyCode (Some "a").

(** ** Further code: the example block of player.py, the release handler,
    and the listener's life cycle *)


(** [BackgroundKeyboardListener._on_release] *)
Definition _on_release (k : key) : Py BackgroundKeyboardListener () :=
  key_char ←
    try_except_AttributeError
      (c ← key_char_attr k; mret (fmt_char c))
      (mret (key_str k));
  self ← get;
  match logger self with
  | Some _ => emit (EvLogInfo ("Key released: " +:+ key_char))
  | None => mret ()
  end;;
  for_each (callbacks self) (λ cb, invoke cb k "release").

(** The text both handlers put in the log for a key: its character, or
    [str(key)] when the key has no [char] attribute. *)
Definition key_text (k : key) : string :=
  match k with
  | KeyCode c => fmt_char c
  | SpecialKey _ => key_str k
  end.

(** The pynput [keyboard.Listener] object kept in [self.listener]; what the
    code does with it after creating it is calling [stop()]. *)
Record pynput_listener : Type := PynputListener {
  stop_calls : nat
}.

(** A listener together with its [self.listener] attribute, which is [None]
    until [start] assigns it. *)
Record listener_object : Type := ListenerObject {
  attrs : BackgroundKeyboardListener;
  handle : option pynput_listener
}.

Definition set_running (b : bool) (self : listener_object)
  : listener_object :=
  {| attrs := {| running := b;
                 callbacks := callbacks (attrs self);
                 logger := logger (attrs self) |};
     handle := handle self |}.

Module Lifecycle.

(** [BackgroundKeyboardListener.__init__] with [self.listener = None]. *)
Definition init (log_file : option string) : listener_object :=
  {| attrs := BackgroundKeyboardListener_init log_file; handle := None |}.

(** [BackgroundKeyboardListener.start], lines 69-78, with the assignment
    of [self.listener]. *)
Definition start : Py listener_object () :=
  self ← get;
  if running (attrs self) then mret ()
  else
    put (set_running true self);;
    (self ← get;
     put {| attrs := attrs self;
            handle := Some {| stop_calls := 0 |} |});;
    emit EvListenerJoin.

(** [BackgroundKeyboardListener.stop] *)
Definition stop : Py listener_object () :=
  self ← get;
  if negb (running (attrs self)) then mret ()
  else
    put (set_running false self);;
    (self ← get;
     match handle self with
     | Some h =>
         put {| attrs := attrs self;
                handle := Some {| stop_calls := S (stop_calls h) |} |}
     | None => mret ()
     end);;
    self ← get;
    match logger (attrs self) with
    | Some _ => emit (EvLogInfo "Keyboard listener stopped")
    | None => mret ()
    end.

(** [BackgroundKeyboardListener.is_running] *)
Definition is_running : Py listener_object bool :=
  self ← get;
  mret (running (attrs self)).

(** [BackgroundKeyboardListener.add_callback] on the full object. *)
Definition add_callback (cb : callback) : Py listener_object () :=
  zoom attrs (λ a self, {| attrs := a; handle := handle self |})
    (add_callback cb).

End Lifecycle.

(** A use of the listener's public methods. *)
Inductive lifecycle_op : Type :=
| OpStart
| OpStop
| OpAdd (cb : callback).

Definition run_op (o : lifecycle_op) : Py listener_object () :=
  match o with
  | OpStart => Lifecycle.start
  | OpStop => Lifecycle.stop
  | OpAdd cb => Lifecycle.add_callback cb
  end.

(** The callbacks a sequence of uses registers, in order. *)
Definition added (ops : list lifecycle_op) : list callback :=
  omap (λ o, match o with OpAdd cb => Some cb | _ => None end) ops.

(** Whether the listener runs after the uses [ops], starting from
    [before]: the last [start] or [stop] decides. *)
Fixpoint running_after (before : bool) (ops : list lifecycle_op) : bool :=
  match ops with
  | [] => before
  | OpStart :: rest => running_after true rest
  | OpStop :: rest => running_after false rest
  | OpAdd _ :: rest => running_after before rest
  end.

(** ** Further notions used by the statements *)

(** Distinct paths of an access log (newest first), most recently used
    first. *)
Fixpoint mru (log : list string) : list string :=
  match log with
  | [] => []
  | p :: older => p :: filter (λ q, q ≠ p) (mru older)
  end.

Definition is_fs_event (e : event) : bool :=
  match e with EvExists _ | EvWaveOpen _ => true | _ => false end.

Definition is_print (e : event) : bool :=
  match e with EvPrint _ => true | _ => false end.

Definition is_log (e : event) : bool :=
  match e with EvLogInfo _ => true | _ => false end.

Definition count (P : event → bool) (t : list event) : nat :=
  length (filter (λ e, P e = true) t).

Definition only (P : event → bool) (t : list event) : list event :=
  filter (λ e, P e = true) t.

(** Scan a trace with the lock state: while the lock is held there is no
    file access, no printing and no device call. *)
Fixpoint brief_from (held : bool) (t : list event) : bool :=
  match t with
  | [] => true
  | EvAcquire :: t' => brief_from true t'
  | EvRelease :: t' => brief_from false t'
  | e :: t' =>
      (negb held || negb (is_fs_event e || is_print e || is_device_event e))
      && brief_from held t'
  end.

Definition is_acquire (e : event) : bool :=
  match e with EvAcquire => true | _ => false end.

Definition is_lock_event (e : event) : bool :=
  match e with EvAcquire | EvRelease => true | _ => false end.

(** The same player with another [_cache_size]. *)
Definition with_size (n : Z) (self : TinyPlayer) : TinyPlayer :=
  {| _cache := _cache self; _cache_keys := _cache_keys self;
     _cache_size := n |}.


(** A host whose stream accepts no data. *)
Definition deaf_host : audio_host :=
  {| get_format_from_width := λ w, inr (8 / w);
     pa_open := λ _ _ _, None;
     stream_write := λ _, Some "Unanticipated host error";
     stream_stop_stream := None;
     stream_close := None;
     pa_terminate := None |}.

(** The log line a handler writes for a key, if logging is on. *)
Definition log_line (prefix : string) (k : key)
    (l : BackgroundKeyboardListener) : list event :=
  match logger l with
  | Some _ => [EvLogInfo (prefix +:+ key_text k)]
  | None => []
  end.

(** A listener that has been started once, with two callbacks. *)
Definition started_listener : listener_object :=
  state_of (for_each [OpAdd cb_second; OpStart; OpAdd cb_third] run_op
              (Lifecycle.init (Some "keyboard_log.txt"))).

(** * Lemmas *)

(** ** Equations of [load_sound], one per path through the code *)

Lemma cache_test_true (self : TinyPlayer) p :
  cached self p → bool_decide (is_Some (_cache self !! p)) = true.
Proof. intros H. by apply bool_decide_eq_true. Qed.

Lemma cache_test_false (self : TinyPlayer) p :
  _cache self !! p = None → bool_decide (is_Some (_cache self !! p)) = false.
Proof.
  intros H. apply bool_decide_eq_false. rewrite H. by intros [? ?].
Qed.

Lemma load_sound_missing fs p self :
  fs p = Missing →
  load_sound fs p self
  = (Return false, self, [EvExists p; EvPrint ("File not found: " +:+ p)]).
Proof. intros H. unfold load_sound; py_unfold. simpl. by rewrite H. Qed.

Lemma load_sound_hit fs p self ks :
  fs p ≠ Missing → cached self p →
  list_remove p (_cache_keys self) = Some ks →
  load_sound fs p self
  = (Return true, set_cache_keys (ks ++ [p]) self,
     [EvExists p; EvKeysRemove p; EvKeysAppend p]).
Proof.
  intros Hfs Hc Hrm. unfold load_sound; py_unfold. simpl.
  destruct (fs p); [done | | ]; simpl;
    by rewrite (cache_test_true _ _ Hc), Hrm.
Qed.

Lemma load_sound_hit_stale fs p self :
  fs p ≠ Missing → cached self p →
  list_remove p (_cache_keys self) = None →
  load_sound fs p self
  = (Raise (ValueError "list.remove(x): x not in list"), self, [EvExists p]).
Proof.
  intros Hfs Hc Hrm. unfold load_sound; py_unfold. simpl.
  destruct (fs p); [done | | ]; simpl;
    by rewrite (cache_test_true _ _ Hc), Hrm.
Qed.

Lemma load_sound_unreadable fs p self why :
  fs p = Unreadable why → _cache self !! p = None →
  load_sound fs p self
  = (Return false, self,
     [EvExists p; EvWaveOpen p; EvPrint ("Error loading sound: " +:+ why)]).
Proof.
  intros Hfs Hc. unfold load_sound; py_unfold. simpl.
  rewrite Hfs. simpl. by rewrite (cache_test_false _ _ Hc).
Qed.

Lemma load_sound_insert fs p self w :
  fs p = Wave w → _cache self !! p = None → is_full self = false →
  load_sound fs p self
  = (Return true,
     {| _cache := <[p := w]> (_cache self);
        _cache_keys := _cache_keys self ++ [p];
        _cache_size := _cache_size self |},
     [EvExists p; EvWaveOpen p; EvAcquire; EvCacheSet p; EvKeysAppend p;
      EvRelease]).
Proof.
  intros Hfs Hc Hfull. unfold is_full in Hfull. unfold load_sound; py_unfold. simpl.
  rewrite Hfs. simpl. rewrite (cache_test_false _ _ Hc). simpl.
  destruct w as [[[a c] s] f]. simpl. by rewrite Hfull.
Qed.

Lemma load_sound_evict fs p self w oldest ks :
  fs p = Wave w → _cache self !! p = None → is_full self = true →
  _cache_keys self = oldest :: ks → cached self oldest →
  load_sound fs p self
  = (Return true,
     {| _cache := <[p := w]> (delete oldest (_cache self));
        _cache_keys := ks ++ [p];
        _cache_size := _cache_size self |},
     [EvExists p; EvWaveOpen p; EvAcquire; EvKeysPop oldest;
      EvCacheDel oldest; EvCacheSet p; EvKeysAppend p; EvRelease]).
Proof.
  intros Hfs Hc Hfull Hks [v Hv]. unfold is_full in Hfull. unfold load_sound; py_unfold. simpl.
  rewrite Hfs. simpl. rewrite (cache_test_false _ _ Hc). simpl.
  destruct w as [[[a c] s] f]. simpl. rewrite Hfull, Hks. simpl.
  by rewrite Hv.
Qed.

Lemma load_sound_evict_stale fs p self w oldest ks :
  fs p = Wave w → _cache self !! p = None → is_full self = true →
  _cache_keys self = oldest :: ks → _cache self !! oldest = None →
  load_sound fs p self
  = (Return false, set_cache_keys ks self,
     [EvExists p; EvWaveOpen p; EvAcquire; EvKeysPop oldest; EvRelease;
      EvPrint ("Error loading sound: " +:+ exn_str (KeyError oldest))]).
Proof.
  intros Hfs Hc Hfull Hks Hv. unfold is_full in Hfull. unfold load_sound; py_unfold. simpl.
  rewrite Hfs. simpl. rewrite (cache_test_false _ _ Hc). simpl.
  destruct w as [[[a c] s] f]. simpl. rewrite Hfull, Hks. simpl.
  by rewrite Hv.
Qed.

Lemma is_full_nonempty self : is_full self = true → _cache_keys self ≠ [].
Proof.
  unfold is_full. intros [_ H]%andb_true_iff. by apply bool_decide_eq_true in H.
Qed.

Lemma load_sound_case fs p self : load_case fs p self (load_sound fs p self).
Proof.
  destruct (fs p) as [|why|w] eqn:Hfs.
  - rewrite load_sound_missing by done. by constructor.
  - destruct (_cache self !! p) as [v|] eqn:Hc.
    + assert (cached self p) as Hin by (by exists v).
      assert (fs p ≠ Missing) as Hne by (by rewrite Hfs).
      destruct (list_remove p (_cache_keys self)) as [ks|] eqn:Hrm.
      * rewrite (load_sound_hit _ _ _ ks) by done. by constructor.
      * rewrite load_sound_hit_stale by done. by constructor.
    + rewrite (load_sound_unreadable _ _ _ why) by done. by constructor.
  - destruct (_cache self !! p) as [v|] eqn:Hc.
    + assert (cached self p) as Hin by (by exists v).
      assert (fs p ≠ Missing) as Hne by (by rewrite Hfs).
      destruct (list_remove p (_cache_keys self)) as [ks|] eqn:Hrm.
      * rewrite (load_sound_hit _ _ _ ks) by done. by constructor.
      * rewrite load_sound_hit_stale by done. by constructor.
    + destruct (is_full self) eqn:Hfull.
      * destruct (_cache_keys self) as [|oldest ks] eqn:Hks.
        { by apply is_full_nonempty in Hfull. }
        destruct (_cache self !! oldest) as [v|] eqn:Hold.
        -- rewrite (load_sound_evict _ _ _ w oldest ks) by (done || by exists v).
           econstructor; eauto. by exists v.
        -- rewrite (load_sound_evict_stale _ _ _ w oldest ks) by done.
           by econstructor.
      * rewrite (load_sound_insert _ _ _ w) by done. by constructor.
Qed.

(** ** Facts about [list.remove] *)

Lemma list_remove_split p l ks :
  list_remove p l = Some ks →
  ∃ l1 l2, l = l1 ++ p :: l2 ∧ ks = l1 ++ l2 ∧ p ∉ l1.
Proof.
  revert ks. induction l as [|y l IH]; intros ks; simpl; [done|].
  case_decide as Hy.
  - intros [= <-]. subst y. exists [], l. split_and!; [done..|]. set_solver.
  - destruct (list_remove p l) as [ks'|] eqn:Hrm; simpl; [|done].
    intros [= <-]. destruct (IH ks' eq_refl) as (l1 & l2 & -> & -> & Hp).
    exists (y :: l1), l2. split_and!; [done..|]. set_solver.
Qed.

Lemma list_remove_elem_of p l : p ∈ l → is_Some (list_remove p l).
Proof.
  induction l as [|y l IH]; simpl; [set_solver|].
  intros Hin. case_decide; [by eexists|].
  destruct IH as [ks ->]; [set_solver|]. by eexists.
Qed.

Lemma list_remove_perm p l ks : list_remove p l = Some ks → l ≡ₚ p :: ks.
Proof.
  intros (l1 & l2 & -> & -> & _)%list_remove_split.
  by rewrite Permutation_middle.
Qed.

(** ** [wf] is kept by every path *)

Lemma wf_init n : wf (TinyPlayer_init n).
Proof. split; simpl; [by rewrite dom_empty_L | constructor]. Qed.

Lemma wf_cached self p : wf self → cached self p ↔ p ∈ _cache_keys self.
Proof.
  intros [Hdom _]. unfold cached.
  by rewrite <-elem_of_dom, Hdom, elem_of_list_to_set.
Qed.

Lemma wf_uncached self p :
  wf self → _cache self !! p = None → p ∉ _cache_keys self.
Proof.
  intros Hwf Hc Hin. apply (wf_cached _ _ Hwf) in Hin as [v Hv]. congruence.
Qed.

Lemma wf_size self : wf self → size (_cache self) = length (_cache_keys self).
Proof.
  intros [Hdom Hnd].
  by rewrite <-(size_dom (D := gset string)), Hdom, size_list_to_set.
Qed.

Lemma load_case_wf fs p self r :
  wf self → load_case fs p self r → wf (state_of r).
Proof.
  intros Hwf Hcase. pose proof Hwf as [Hdom Hnd].
  destruct Hcase as
    [ Hfs | ks Hfs Hc Hrm | Hfs Hc Hrm | why Hfs Hc | w Hfs Hc Hfull
    | w oldest ks Hfs Hc Hfull Hks Hold | w oldest ks Hfs Hc Hfull Hks Hold ];
    unfold state_of; simpl; try done.
  - apply list_remove_perm in Hrm. split; simpl.
    + rewrite Hdom. apply list_to_set_perm_L.
      rewrite Hrm. by rewrite <-Permutation_cons_append.
    + rewrite <-Permutation_cons_append, <-Hrm. done.
  - pose proof (wf_uncached _ _ Hwf Hc) as Hnin. split; simpl.
    + rewrite dom_insert_L, Hdom, list_to_set_snoc_L. set_solver.
    + apply NoDup_app. split_and!; [done| |apply NoDup_singleton].
      intros x Hx ->%list_elem_of_singleton. done.
  - pose proof (wf_uncached _ _ Hwf Hc) as Hnin.
    rewrite Hks in Hdom, Hnd, Hnin.
    apply NoDup_cons in Hnd as [Hold_nin Hnd]. split; simpl.
    + rewrite dom_insert_L, dom_delete_L, Hdom, list_to_set_snoc_L,
        list_to_set_cons.
      set_solver.
    + apply NoDup_app. split_and!; [done| |apply NoDup_singleton].
      intros x Hx ->%list_elem_of_singleton. set_solver.
  - exfalso. apply (wf_uncached _ _ Hwf) in Hold. rewrite Hks in Hold.
    set_solver.
Qed.

Lemma load_sound_wf fs p self : wf self → wf (state_of (load_sound fs p self)).
Proof. intros Hwf. eapply load_case_wf; [done | apply load_sound_case]. Qed.

(** ** Capacity *)

Lemma load_case_size fs p self r :
  load_case fs p self r → _cache_size (state_of r) = _cache_size self.
Proof. by destruct 1. Qed.

Lemma load_case_capacity fs p self r :
  1 ≤ _cache_size self → within_capacity self →
  load_case fs p self r → within_capacity (state_of r).
Proof.
  unfold within_capacity. intros Hn Hcap Hcase.
  destruct Hcase as
    [ Hfs | ks Hfs Hc Hrm | Hfs Hc Hrm | why Hfs Hc | w Hfs Hc Hfull
    | w oldest ks Hfs Hc Hfull Hks Hold | w oldest ks Hfs Hc Hfull Hks Hold ];
    unfold state_of; simpl; try done.
  - apply list_remove_perm, Permutation_length in Hrm.
    rewrite length_app. simpl in *. lia.
  - unfold is_full in Hfull. apply andb_false_iff in Hfull as [Hlt|Hnil].
    + apply Z.leb_gt in Hlt. rewrite length_app. simpl. lia.
    + apply bool_decide_eq_false in Hnil.
      destruct (_cache_keys self); [simpl; lia|]. by destruct Hnil.
  - rewrite Hks in Hcap. rewrite length_app. simpl in *. lia.
  - rewrite Hks in Hcap. simpl in *. lia.
Qed.

(** ** Recency: the list is ordered by time of last access *)

Lemma last_access_le log p : (last_access log p ≤ length log)%nat.
Proof.
  induction log as [|q log IH]; simpl; [lia|]. case_decide; lia.
Qed.

Lemma last_access_touch log p : last_access (p :: log) p = S (length log).
Proof. simpl. by rewrite decide_True. Qed.

Lemma last_access_other log p q :
  q ≠ p → last_access (p :: log) q = last_access log q.
Proof. intros Hne. simpl. by rewrite decide_False. Qed.

Lemma StronglySorted_impl_on {A} (R R' : relation A) (l : list A) :
  (∀ a b, a ∈ l → b ∈ l → R a b → R' a b) →
  StronglySorted R l → StronglySorted R' l.
Proof.
  intros Himpl Hs. induction Hs as [|x l Hs IH Hall]; constructor.
  - apply IH. intros a b Ha Hb. apply Himpl; set_solver.
  - rewrite Forall_forall in Hall |- *. intros y Hy.
    apply Himpl; [set_solver..|]. by apply Hall.
Qed.

Lemma recency_sorted_touch log ks p :
  p ∉ ks → recency_sorted log ks → recency_sorted (p :: log) (ks ++ [p]).
Proof.
  intros Hnin Hs. apply StronglySorted_app_2.
  - intros a b Ha ->%list_elem_of_singleton. unfold older_in.
    rewrite last_access_touch, last_access_other by set_solver.
    pose proof (last_access_le log a). lia.
  - eapply StronglySorted_impl_on; [|exact Hs].
    intros a b Ha Hb. unfold older_in.
    by rewrite !last_access_other by set_solver.
  - repeat constructor.
Qed.

Lemma recency_sorted_drop log l1 x l2 :
  recency_sorted log (l1 ++ x :: l2) → recency_sorted log (l1 ++ l2).
Proof.
  unfold recency_sorted. rewrite !StronglySorted_app, StronglySorted_cons.
  intros (Hx & H1 & _ & H2). split_and!; [|done..].
  intros a b Ha Hb. apply Hx; set_solver.
Qed.

Lemma load_case_recency fs p self r log :
  wf self → recency_sorted log (_cache_keys self) →
  load_case fs p self r →
  recency_sorted (log_access (result_of r) p log) (_cache_keys (state_of r)).
Proof.
  intros Hwf Hs Hcase. pose proof Hwf as [Hdom Hnd].
  destruct Hcase as
    [ Hfs | ks Hfs Hc Hrm | Hfs Hc Hrm | why Hfs Hc | w Hfs Hc Hfull
    | w oldest ks Hfs Hc Hfull Hks Hold | w oldest ks Hfs Hc Hfull Hks Hold ];
    unfold state_of, result_of; simpl; try done.
  - apply list_remove_split in Hrm as (l1 & l2 & Hl & -> & Hp1).
    rewrite Hl in Hs, Hnd. apply recency_sorted_touch.
    + apply NoDup_app in Hnd as (_ & Hd & [Hp2 _]%NoDup_cons).
      intros [?|?]%elem_of_app; done.
    + by eapply recency_sorted_drop.
  - apply recency_sorted_touch; [by eapply wf_uncached | done].
  - pose proof (wf_uncached _ _ Hwf Hc) as Hnin. rewrite Hks in Hs, Hnin.
    apply recency_sorted_touch; [set_solver|].
    by apply StronglySorted_cons in Hs as [_ ?].
  - rewrite Hks in Hs. by apply StronglySorted_cons in Hs as [_ ?].
Qed.

(** ** What holds after any sequence of calls *)

Lemma reachable_inv_init n : 1 ≤ n → reachable_inv n (TinyPlayer_init n) [].
Proof.
  intros Hn.
  split; [done | apply wf_init | unfold within_capacity; simpl; lia
         | constructor].
Qed.

Lemma reachable_inv_step n fs p self log :
  1 ≤ n → reachable_inv n self log →
  let r := load_sound fs p self in
  reachable_inv n (state_of r) (log_access (result_of r) p log).
Proof.
  intros Hn [Hsz Hwf Hcap Hrec]. simpl.
  pose proof (load_sound_case fs p self) as Hcase. split.
  - by rewrite (load_case_size _ _ _ _ Hcase).
  - by eapply load_case_wf.
  - eapply load_case_capacity; [|done..]. lia.
  - by eapply load_case_recency.
Qed.

Lemma reachable_inv_run n calls self log :
  1 ≤ n → reachable_inv n self log →
  reachable_inv n (run_loads calls self log).1 (run_loads calls self log).2.
Proof.
  intros Hn. revert self log.
  induction calls as [|[fs p] calls IH]; intros self log Hinv; simpl; [done|].
  apply IH. by apply reachable_inv_step.
Qed.

(** ** [play] and [cleanup] *)

Lemma play_unfold host fs p :
  play host fs p
  = (cached ← cache_contains p;
     skip ← (if negb cached
             then loaded ← load_sound fs p; mret (negb loaded)
             else mret false);
     if (skip : bool) then mret ()
     else entry ← cache_getitem p; play_stream host entry).
Proof. reflexivity. Qed.

Lemma play_stream_returns host entry self :
  ∃ t, play_stream host entry self = (Return (), self, t) ∧ quiet t.
Proof.
  destruct entry as [[[data channels] width] rate].
  unfold play_stream. py_unfold. simpl.
  destruct (get_format_from_width host width) as [msg|format]; simpl.
  { eexists. split; [done|]. repeat constructor. }
  destruct (pa_open host format channels rate) as [msg|]; simpl.
  { eexists. split; [done|]. repeat constructor. }
  destruct (stream_write host data) as [msg|]; simpl.
  { eexists. split; [done|]. repeat constructor. }
  destruct (stream_stop_stream host) as [msg|]; simpl.
  { eexists. split; [done|]. repeat constructor. }
  destruct (stream_close host) as [msg|]; simpl.
  { eexists. split; [done|]. repeat constructor. }
  eexists. split; [done|]. repeat constructor.
Qed.

Lemma play_cached host fs p self :
  cached self p →
  ∃ t, play host fs p self = (Return (), self, t) ∧ quiet t.
Proof.
  intros Hin. pose proof Hin as [v Hv]. rewrite play_unfold.
  unfold cache_contains, cache_getitem, get, raise, mbind, mret, Py_bind,
    Py_ret, py_bind, py_ret. simpl.
  rewrite (cache_test_true _ _ Hin). simpl. rewrite Hv.
  destruct (play_stream_returns host v self) as (t & -> & Hq).
  by exists t.
Qed.

Lemma play_uncached host fs p self :
  _cache self !! p = None →
  ∃ b self' t t',
    load_sound fs p self = (Return b, self', t)
    ∧ play host fs p self = (Return (), self', t ++ t')
    ∧ quiet t' ∧ (b = false → t' = []).
Proof.
  intros Hc. rewrite play_unfold.
  unfold cache_contains, cache_getitem, get, raise, mbind, mret, Py_bind,
    Py_ret, py_bind, py_ret. simpl.
  rewrite (cache_test_false _ _ Hc). simpl.
  destruct (load_sound_case fs p self) as
    [ Hfs | ks Hfs [v Hv] Hrm | Hfs [v Hv] Hrm | why Hfs _ | w Hfs _ Hfull
    | w oldest ks Hfs _ Hfull Hks Hold | w oldest ks Hfs _ Hfull Hks Hold ];
    simpl; try congruence.
  - eexists _, _, _, []. split_and!; try done. constructor.
  - eexists _, _, _, []. split_and!; try done. constructor.
  - rewrite lookup_insert_eq.
    destruct (play_stream_returns host w
      {| _cache := <[p:=w]> (_cache self);
         _cache_keys := _cache_keys self ++ [p];
         _cache_size := _cache_size self |}) as (t & -> & Hq).
    eexists _, _, _, t. split_and!; try done.
  - rewrite lookup_insert_eq.
    destruct (play_stream_returns host w
      {| _cache := <[p:=w]> (delete oldest (_cache self));
         _cache_keys := ks ++ [p];
         _cache_size := _cache_size self |}) as (t & -> & Hq).
    eexists _, _, _, t. split_and!; try done.
  - eexists _, _, _, []. split_and!; try done. constructor.
Qed.

Lemma play_wf host fs p self : wf self → wf (state_of (play host fs p self)).
Proof.
  intros Hwf. destruct (_cache self !! p) as [v|] eqn:Hc.
  - destruct (play_cached host fs p self) as (t & -> & _); [by exists v|done].
  - destruct (play_uncached host fs p self Hc)
      as (b & self' & t & t' & Hload & -> & _).
    pose proof (load_sound_wf fs p self Hwf) as Hwf'.
    by rewrite Hload in Hwf'.
Qed.

Lemma cleanup_run host self :
  ∃ t, cleanup host self
       = (Return (),
          {| _cache := ∅; _cache_keys := []; _cache_size := _cache_size self |},
          EvCacheClear :: EvKeysClear :: EvPaTerminate :: t).
Proof.
  unfold cleanup. py_unfold. simpl.
  destruct (pa_terminate host); simpl; by eexists.
Qed.

(** * The claims *)

(** ** C10 *)

(** C10: every operation of [TinyPlayer] ([load_sound], [play], [cleanup])
    keeps the invariant [wf]: the key set of the cache dict equals the set of
    elements of the recency list, and the recency list has no duplicates.
    A freshly constructed player satisfies it. *)
Theorem C10_operations_keep_wf (self : TinyPlayer) (Hwf : wf self) :
  (∀ fs p, wf (state_of (load_sound fs p self)))
  ∧ (∀ host fs p, wf (state_of (play host fs p self)))
  ∧ (∀ host, wf (state_of (cleanup host self)))
  ∧ (∀ n, wf (TinyPlayer_init n)).
Proof.
  split_and!.
  - intros fs p. by apply load_sound_wf.
  - intros host fs p. by apply play_wf.
  - intros host. destruct (cleanup_run host self) as [t ->].
    split; simpl; [by rewrite dom_empty_L | constructor].
  - apply wf_init.
Qed.

Lemma player_ab_wf : wf player_ab.
Proof.
  unfold player_ab. simpl. do 2 apply load_sound_wf. apply wf_init.
Qed.

Lemma C10_witness :
  wf player_ab
  ∧ wf (state_of (load_sound all_waves "c.wav" player_ab))
  ∧ wf (state_of (play silent_host all_waves "a.wav" player_ab))
  ∧ wf (state_of (cleanup silent_host player_ab)).
Proof.
  pose proof (C10_operations_keep_wf player_ab player_ab_wf)
    as (Hload & Hplay & Hclean & _).
  split_and!; [apply player_ab_wf | apply Hload | apply Hplay | apply Hclean].
Defined.

(** ** C1 *)

Lemma load_case_evicted fs p self r e :
  wf self → load_case fs p self r → evicted (trace_of r) = Some e →
  ∃ ks, _cache_keys self = e :: ks ∧ cached self e
        ∧ _cache (state_of r) !! e = None.
Proof.
  intros Hwf Hcase.
  destruct Hcase as
    [ Hfs | ks Hfs Hc Hrm | Hfs Hc Hrm | why Hfs Hc | w Hfs Hc Hfull
    | w oldest ks Hfs Hc Hfull Hks Hold | w oldest ks Hfs Hc Hfull Hks Hold ];
    unfold trace_of, state_of; simpl; try done.
  intros [= <-]. exists ks. split_and!; [done..|].
  assert (p ≠ oldest) as Hne.
  { intros ->. destruct Hold as [v Hv]. congruence. }
  by rewrite lookup_insert_ne, lookup_delete_eq.
Qed.

Lemma run_loads_cons fs p rest self log :
  run_loads ((fs, p) :: rest) self log
  = run_loads rest (state_of (load_sound fs p self))
      (log_access (result_of (load_sound fs p self)) p log).
Proof. reflexivity. Qed.

Lemma run_loads_ab fa fb wa wb rest :
  fa "a.wav" = Wave wa → fb "b.wav" = Wave wb →
  run_loads ((fa, "a.wav") :: (fb, "b.wav") :: rest) (TinyPlayer_init 2) []
  = run_loads rest (state_ab wa wb) ["b.wav"; "a.wav"].
Proof.
  intros Ha Hb.
  rewrite run_loads_cons, (load_sound_insert fa "a.wav" _ wa) by done.
  unfold state_of, result_of. cbn [fst snd log_access].
  rewrite run_loads_cons, (load_sound_insert fb "b.wav" _ wb) by done.
  reflexivity.
Qed.

Lemma load_c_after_ab fc wa wb wc :
  fc "c.wav" = Wave wc →
  load_sound fc "c.wav" (state_ab wa wb)
  = (Return true,
     {| _cache := <["c.wav" := wc]> (delete "a.wav" (_cache (state_ab wa wb)));
        _cache_keys := ["b.wav"; "c.wav"];
        _cache_size := 2 |},
     [EvExists "c.wav"; EvWaveOpen "c.wav"; EvAcquire; EvKeysPop "a.wav";
      EvCacheDel "a.wav"; EvCacheSet "c.wav"; EvKeysAppend "c.wav";
      EvRelease]).
Proof.
  intros Hc.
  rewrite (load_sound_evict fc "c.wav" _ wc "a.wav" ["b.wav"]);
    [done..| by eexists].
Qed.

(** C1: starting from a player built with capacity [N >= 1], after any
    sequence of [load_sound] calls the cache holds at most [N] entries; and
    if the next call evicts an entry [e], then [e] was cached, is gone
    afterwards, and every other cached entry was accessed (loaded or hit)
    more recently than [e].  With capacity 2, loading a.wav, b.wav, c.wav
    leaves exactly b.wav and c.wav in the cache, a.wav being evicted. *)
Theorem C1_capacity_and_lru (N : Z) (calls : list call) (HN : 1 ≤ N) :
  let self := (run_loads calls (TinyPlayer_init N) []).1 in
  let log := (run_loads calls (TinyPlayer_init N) []).2 in
  (Z.of_nat (size (_cache self)) ≤ N
   ∧ Z.of_nat (length (_cache_keys self)) ≤ N)
  ∧ (∀ fs p e,
       evicted (trace_of (load_sound fs p self)) = Some e →
       cached self e
       ∧ ¬ cached (state_of (load_sound fs p self)) e
       ∧ ∀ q, cached self q → q ≠ e → older_in log e q)
  ∧ (∀ fa fb fc wa wb wc,
       fa "a.wav" = Wave wa → fb "b.wav" = Wave wb → fc "c.wav" = Wave wc →
       let s3 := (run_loads [(fa, "a.wav"); (fb, "b.wav"); (fc, "c.wav")]
                    (TinyPlayer_init 2) []).1 in
       dom (_cache s3) = {[ "b.wav"; "c.wav" ]}
       ∧ _cache_keys s3 = ["b.wav"; "c.wav"]
       ∧ ¬ cached s3 "a.wav"
       ∧ evicted (trace_of (load_sound fc "c.wav"
            (run_loads [(fa, "a.wav"); (fb, "b.wav")]
               (TinyPlayer_init 2) []).1)) = Some "a.wav").
Proof.
  intros self log.
  pose proof (reachable_inv_run N calls _ [] HN (reachable_inv_init N HN))
    as [Hsz Hwf Hcap Hrec].
  fold self log in Hsz, Hwf, Hcap, Hrec. unfold within_capacity in Hcap.
  split_and!.
  - rewrite (wf_size _ Hwf). lia.
  - lia.
  - intros fs p e Hev.
    destruct (load_case_evicted fs p self _ e Hwf (load_sound_case fs p self)
                Hev) as (ks & Hks & Hin & Hout).
    split_and!; [done | by intros [v Hv]; congruence |].
    intros q Hq Hne. apply (wf_cached _ _ Hwf) in Hq.
    rewrite Hks in Hq, Hrec. apply StronglySorted_cons in Hrec as [Hall _].
    rewrite Forall_forall in Hall. apply Hall. set_solver.
  - intros fa fb fc wa wb wc Ha Hb Hc s3. unfold s3.
    rewrite !(run_loads_ab fa fb wa wb) by done.
    rewrite run_loads_cons. cbn [run_loads fst snd].
    rewrite !(load_c_after_ab fc wa wb wc Hc).
    unfold state_of, trace_of, cached. simpl. split_and!; [|done| |done].
    + rewrite dom_insert_L, dom_delete_L, !dom_insert_L, dom_empty_L.
      apply set_eq. intros x. set_unfold. naive_solver.
    + rewrite lookup_insert_ne, lookup_delete_eq by done. by intros [? ?].
Qed.

Lemma C1_witness :
  1 ≤ 2
  ∧ Z.of_nat (size (_cache player_ab)) ≤ 2
  ∧ cached player_ab "a.wav"
  ∧ ¬ cached (state_of (load_sound all_waves "c.wav" player_ab)) "a.wav"
  ∧ older_in ["b.wav"; "a.wav"] "a.wav" "b.wav".
Proof.
  assert (1 ≤ 2) as H12 by lia.
  pose proof (C1_capacity_and_lru 2
                [(all_waves, "a.wav"); (all_waves, "b.wav")] H12)
    as ((Hsz & _) & Hlru & _).
  destruct (Hlru all_waves "c.wav" "a.wav") as (Hin & Hout & Holder).
  { vm_compute. reflexivity. }
  split_and!; [exact H12 | exact Hsz | exact Hin | exact Hout |].
  apply Holder; [|done]. vm_compute. by eexists.
Defined.

(** ** C8 *)

Lemma load_a_after_ab f3 wa wb :
  f3 "a.wav" ≠ Missing →
  load_sound f3 "a.wav" (state_ab wa wb)
  = (Return true,
     set_cache_keys ["b.wav"; "a.wav"] (state_ab wa wb),
     [EvExists "a.wav"; EvKeysRemove "a.wav"; EvKeysAppend "a.wav"]).
Proof.
  intros H3.
  rewrite (load_sound_hit f3 "a.wav" _ ["b.wav"]); [done..| |done].
  exists wa. unfold state_ab. simpl.
  by rewrite lookup_insert_ne, lookup_insert_eq.
Qed.

Lemma load_c_after_aba f4 wa wb wc :
  f4 "c.wav" = Wave wc →
  load_sound f4 "c.wav" (set_cache_keys ["b.wav"; "a.wav"] (state_ab wa wb))
  = (Return true,
     {| _cache := <["c.wav" := wc]> (delete "b.wav" (_cache (state_ab wa wb)));
        _cache_keys := ["a.wav"; "c.wav"];
        _cache_size := 2 |},
     [EvExists "c.wav"; EvWaveOpen "c.wav"; EvAcquire; EvKeysPop "b.wav";
      EvCacheDel "b.wav"; EvCacheSet "c.wav"; EvKeysAppend "c.wav";
      EvRelease]).
Proof.
  intros Hc.
  rewrite (load_sound_evict f4 "c.wav" _ wc "b.wav" ["a.wav"]);
    [done..|].
  exists wb. unfold state_ab. simpl. by rewrite lookup_insert_eq.
Qed.

(** C8: with capacity 2, the calls load(a.wav), load(b.wav), load(a.wav),
    load(c.wav) -- all files being loadable -- make the third call a hit that
    moves a.wav behind b.wav, the fourth call evicts b.wav, and the cache
    ends up holding exactly a.wav and c.wav. *)
Theorem C8_hit_refreshes_recency (f1 f2 f3 f4 : filesystem)
    (wa wb wc : payload)
    (H1 : f1 "a.wav" = Wave wa) (H2 : f2 "b.wav" = Wave wb)
    (H3 : f3 "a.wav" ≠ Missing) (H4 : f4 "c.wav" = Wave wc) :
  let third :=
    (run_loads [(f1, "a.wav"); (f2, "b.wav"); (f3, "a.wav")]
       (TinyPlayer_init 2) []).1 in
  let final :=
    (run_loads [(f1, "a.wav"); (f2, "b.wav"); (f3, "a.wav"); (f4, "c.wav")]
       (TinyPlayer_init 2) []).1 in
  _cache_keys third = ["b.wav"; "a.wav"]
  ∧ wave_opens (trace_of (load_sound f3 "a.wav"
       (run_loads [(f1, "a.wav"); (f2, "b.wav")] (TinyPlayer_init 2) []).1))
    = 0%nat
  ∧ evicted (trace_of (load_sound f4 "c.wav" third)) = Some "b.wav"
  ∧ dom (_cache final) = {[ "a.wav"; "c.wav" ]}
  ∧ _cache final !! "a.wav" = Some wa
  ∧ _cache final !! "b.wav" = None
  ∧ _cache final !! "c.wav" = Some wc
  ∧ _cache_keys final = ["a.wav"; "c.wav"].
Proof.
  intros third final. unfold third, final.
  rewrite !(run_loads_ab f1 f2 wa wb) by done.
  rewrite !run_loads_cons. cbn [run_loads fst snd].
  rewrite !(load_a_after_ab f3 wa wb H3).
  unfold state_of, trace_of. cbn [fst snd].
  rewrite !(load_c_after_aba f4 wa wb wc H4).
  unfold state_ab. simpl.
  by split_and!.
Qed.

Lemma C8_witness :
  let final :=
    (run_loads [(all_waves, "a.wav"); (all_waves, "b.wav");
                (all_waves, "a.wav"); (all_waves, "c.wav")]
       (TinyPlayer_init 2) []).1 in
  dom (_cache final) = {[ "a.wav"; "c.wav" ]}
  ∧ _cache_keys final = ["a.wav"; "c.wav"].
Proof.
  assert (all_waves "a.wav" ≠ Missing) as H3 by (vm_compute; discriminate).
  pose proof (C8_hit_refreshes_recency all_waves all_waves all_waves
                all_waves beep beep beep eq_refl eq_refl H3 eq_refl)
    as (_ & _ & _ & Hdom & _ & _ & _ & Hkeys).
  exact (conj Hdom Hkeys).
Defined.

(** A load of an uncached path whose file is not a readable wave. *)
Lemma load_sound_unloadable fs p self :
  ¬ cached self p → (∀ w, fs p ≠ Wave w) →
  ∃ t, load_sound fs p self = (Return false, self, t) ∧ Forall probing t.
Proof.
  intros Hunc Hbad.
  destruct (load_sound_case fs p self) as
    [ Hfs | ks Hfs Hc Hrm | Hfs Hc Hrm | why Hfs Hc | w Hfs Hc Hfull
    | w oldest ks Hfs Hc Hfull Hks Hold | w oldest ks Hfs Hc Hfull Hks Hold ];
    try done; try (by destruct (Hbad w));
    (eexists; split; [done | by repeat constructor]).
Qed.

Lemma probing_no_device t : Forall probing t → no_device t.
Proof. intros H. eapply Forall_impl; [exact H|]. by intros []. Qed.

(** ** C6 *)

(** C6: when [p] is not cached and the file is missing, unreadable or not a
    wave file, [load_sound] returns [False] without raising and the player
    (dict and recency list) is exactly what it was.  On a well-formed player
    every call on an uncached path that does not succeed, whatever the
    cause, returns [False] and changes nothing. *)
Theorem C6_failed_load_changes_nothing (fs : filesystem) (p : string)
    (self : TinyPlayer)
    (Huncached : ¬ cached self p) (Hbad : ∀ w, fs p ≠ Wave w) :
  (result_of (load_sound fs p self) = Return false
   ∧ state_of (load_sound fs p self) = self)
  ∧ (wf self → ∀ fs',
       result_of (load_sound fs' p self) ≠ Return true →
       result_of (load_sound fs' p self) = Return false
       ∧ state_of (load_sound fs' p self) = self).
Proof.
  split.
  - by destruct (load_sound_unloadable fs p self Huncached Hbad) as (t & -> & _).
  - intros Hwf fs'.
    destruct (load_sound_case fs' p self) as
      [ Hfs | ks Hfs Hc Hrm | Hfs Hc Hrm | why Hfs Hc | w Hfs Hc Hfull
      | w oldest ks Hfs Hc Hfull Hks Hold | w oldest ks Hfs Hc Hfull Hks Hold ];
      try done.
    intros _. exfalso. apply (wf_uncached _ _ Hwf) in Hold.
    rewrite Hks in Hold. set_solver.
Qed.

Lemma C6_witness :
  result_of (load_sound no_files "c.wav" player_ab) = Return false
  ∧ state_of (load_sound no_files "c.wav" player_ab) = player_ab.
Proof.
  assert (¬ cached player_ab "c.wav") as Hunc.
  { vm_compute. by intros [? ?]. }
  assert (∀ w, no_files "c.wav" ≠ Wave w) as Hbad.
  { intros w. vm_compute. discriminate. }
  exact (proj1 (C6_failed_load_changes_nothing no_files "c.wav" player_ab
                  Hunc Hbad)).
Defined.

(** ** C2 *)

(** The claim as worded fails when the file of a cached path has been
    removed since it was loaded: [os.path.exists] is tested before the
    cache, so the call reports failure and the recency list is untouched. *)
Lemma C2_counterexample :
  cached player_ab "a.wav"
  ∧ result_of (load_sound no_files "a.wav" player_ab) = Return false
  ∧ _cache_keys (state_of (load_sound no_files "a.wav" player_ab))
    = ["a.wav"; "b.wav"].
Proof.
  split_and!.
  - vm_compute. by eexists.
  - vm_compute. reflexivity.
  - vm_compute. reflexivity.
Qed.

(** C2 (amended): on a well-formed player, if [p] is cached and its file
    still exists, [load_sound p] returns [True], leaves the dict as it is,
    moves [p] to the end of the recency list (the other keys keep their
    order) and only tests for existence: the file is neither opened nor
    read.  Consequently, loading an uncached readable file and then loading
    it again while it still exists succeeds both times and opens the file
    once, on the first call. *)
Theorem C2_hit_refreshes_without_reading (fs1 fs2 : filesystem) (p : string)
    (self : TinyPlayer) (Hwf : wf self) (Hexists : fs2 p ≠ Missing) :
  (cached self p →
     let r := load_sound fs2 p self in
     result_of r = Return true
     ∧ _cache (state_of r) = _cache self
     ∧ (∃ l1 l2, _cache_keys self = l1 ++ p :: l2
                 ∧ _cache_keys (state_of r) = l1 ++ l2 ++ [p])
     ∧ trace_of r = [EvExists p; EvKeysRemove p; EvKeysAppend p]
     ∧ wave_opens (trace_of r) = 0%nat)
  ∧ (¬ cached self p → (∃ w, fs1 p = Wave w) →
     let r1 := load_sound fs1 p self in
     let r2 := load_sound fs2 p (state_of r1) in
     result_of r1 = Return true ∧ result_of r2 = Return true
     ∧ wave_opens (trace_of r1) = 1%nat ∧ wave_opens (trace_of r2) = 0%nat
     ∧ last (_cache_keys (state_of r2)) = Some p).
Proof.
  assert (∀ st, wf st → cached st p →
            let r := load_sound fs2 p st in
            result_of r = Return true
            ∧ _cache (state_of r) = _cache st
            ∧ (∃ l1 l2, _cache_keys st = l1 ++ p :: l2
                        ∧ _cache_keys (state_of r) = l1 ++ l2 ++ [p])
            ∧ trace_of r = [EvExists p; EvKeysRemove p; EvKeysAppend p]
            ∧ wave_opens (trace_of r) = 0%nat) as Hhit.
  { intros st Hst Hin. simpl.
    destruct (list_remove_elem_of p (_cache_keys st)) as [ks Hrm].
    { by apply wf_cached. }
    rewrite (load_sound_hit fs2 p st ks) by done.
    unfold result_of, state_of, trace_of. simpl. split_and!; try done.
    apply list_remove_split in Hrm as (l1 & l2 & Hl & -> & _).
    exists l1, l2. by rewrite <-app_assoc. }
  split; [by apply Hhit|].
  intros Hunc [w Hw]. simpl.
  assert (_cache self !! p = None) as Hnone.
  { destruct (_cache self !! p) eqn:E; [|done]. destruct Hunc. by eexists. }
  pose proof (load_sound_wf fs1 p self Hwf) as Hwf1.
  assert (result_of (load_sound fs1 p self) = Return true
          ∧ wave_opens (trace_of (load_sound fs1 p self)) = 1%nat
          ∧ cached (state_of (load_sound fs1 p self)) p) as (Hr1 & Hio1 & Hin1).
  { destruct (load_sound_case fs1 p self) as
      [ Hfs | ks Hfs [v Hv] Hrm | Hfs [v Hv] Hrm | why Hfs Hc | w' Hfs Hc Hfull
      | w' oldest ks Hfs Hc Hfull Hks Hold
      | w' oldest ks Hfs Hc Hfull Hks Hold ]; try congruence.
    - unfold result_of, state_of, trace_of, cached. simpl.
      split_and!; [done..|]. rewrite lookup_insert_eq. by eexists.
    - unfold result_of, state_of, trace_of, cached. simpl.
      split_and!; [done..|]. rewrite lookup_insert_eq. by eexists.
    - exfalso. apply (wf_uncached _ _ Hwf) in Hold. rewrite Hks in Hold.
      set_solver. }
  destruct (Hhit _ Hwf1 Hin1) as (Hr2 & _ & (l1 & l2 & _ & Hk2) & _ & Hio2).
  split_and!; try done.
  by rewrite Hk2, !app_assoc, last_snoc.
Qed.

Lemma C2_witness :
  result_of (load_sound all_waves "a.wav" player_ab) = Return true
  ∧ wave_opens (trace_of (load_sound all_waves "a.wav" player_ab)) = 0%nat.
Proof.
  assert (all_waves "a.wav" ≠ Missing) as Hex by (vm_compute; discriminate).
  assert (cached player_ab "a.wav") as Hin by (vm_compute; by eexists).
  destruct (C2_hit_refreshes_without_reading all_waves all_waves "a.wav"
              player_ab player_ab_wf Hex) as [Hhit _].
  destruct (Hhit Hin) as (Hr & _ & _ & _ & Hio).
  exact (conj Hr Hio).
Defined.

(** ** C7 *)

(** C7: [play] never raises, whatever the state of the player, the file
    system and the audio host do; and when the path is not cached and cannot
    be loaded (missing, unreadable or malformed file), [play] returns with
    the player unchanged and without touching the audio device. *)
Theorem C7_play_never_raises (host : audio_host) (fs : filesystem)
    (p : string) (self : TinyPlayer) :
  result_of (play host fs p self) = Return ()
  ∧ (¬ cached self p → (∀ w, fs p ≠ Wave w) →
     no_device (trace_of (play host fs p self))
     ∧ state_of (play host fs p self) = self).
Proof.
  destruct (_cache self !! p) as [v|] eqn:Hc.
  - destruct (play_cached host fs p self) as (t & -> & _); [by exists v|].
    split; [done|]. intros Hunc. destruct Hunc. by exists v.
  - destruct (play_uncached host fs p self Hc)
      as (b & self' & t & t' & Hload & -> & _ & Hfalse).
    split; [done|]. intros Hunc Hbad.
    destruct (load_sound_unloadable fs p self Hunc Hbad) as (t0 & Hl0 & Hquiet).
    rewrite Hl0 in Hload. injection Hload as <- <- <-.
    rewrite (Hfalse eq_refl), app_nil_r. split; [|done].
    by apply probing_no_device.
Qed.

Lemma C7_witness :
  result_of (play broken_host no_files "c.wav" player_ab) = Return ()
  ∧ no_device (trace_of (play broken_host no_files "c.wav" player_ab))
  ∧ state_of (play broken_host no_files "c.wav" player_ab) = player_ab.
Proof.
  assert (¬ cached player_ab "c.wav") as Hunc.
  { vm_compute. by intros [? ?]. }
  assert (∀ w, no_files "c.wav" ≠ Wave w) as Hbad.
  { intros w. vm_compute. discriminate. }
  destruct (C7_play_never_raises broken_host no_files "c.wav" player_ab)
    as [Hres Hrest].
  destruct (Hrest Hunc Hbad) as [Hdev Hst].
  exact (conj Hres (conj Hdev Hst)).
Defined.

(** ** C9 *)

(** C9: [cleanup] never raises and leaves the dict and the recency list
    empty; a second [cleanup], whatever the audio host answers to the
    repeated [terminate], does not raise either and leaves the player exactly
    as the first one left it. *)
Theorem C9_cleanup_idempotent (host1 host2 : audio_host) (self : TinyPlayer) :
  let r1 := cleanup host1 self in
  let r2 := cleanup host2 (state_of r1) in
  result_of r1 = Return ()
  ∧ _cache (state_of r1) = ∅ ∧ _cache_keys (state_of r1) = []
  ∧ result_of r2 = Return ()
  ∧ _cache (state_of r2) = ∅ ∧ _cache_keys (state_of r2) = []
  ∧ state_of r2 = state_of r1.
Proof.
  intros r1 r2. subst r2.
  destruct (cleanup_run host2 (state_of r1)) as [t2 ->].
  subst r1. destruct (cleanup_run host1 self) as [t1 ->].
  by split_and!.
Qed.

(** ** C5 *)

Lemma load_case_lock_released fs p self r :
  load_case fs p self r → lock_after false (trace_of r) = false.
Proof. by destruct 1. Qed.

(** On the miss path every mutation happens with the lock held. *)
Lemma load_case_miss_guarded fs p self r :
  ¬ cached self p → load_case fs p self r →
  mutations_guarded (trace_of r) = true.
Proof. intros Hunc. by destruct 1. Qed.

(** C5 (the code at a failing input): a cache hit removes and re-appends the
    path in [_cache_keys] without ever taking [self._lock], and [cleanup]
    clears the dict and the list without it as well, while the miss path of
    the same method does take the lock ([load_case_miss_guarded]). *)
Theorem C5_hit_and_cleanup_mutate_unlocked :
  trace_of (load_sound all_waves "a.wav" player_ab)
  = [EvExists "a.wav"; EvKeysRemove "a.wav"; EvKeysAppend "a.wav"]
  ∧ mutations_guarded (trace_of (load_sound all_waves "a.wav" player_ab))
    = false
  ∧ _cache_keys (state_of (load_sound all_waves "a.wav" player_ab))
    = ["b.wav"; "a.wav"]
  ∧ mutations_guarded (trace_of (cleanup silent_host player_ab)) = false
  ∧ mutations_guarded (trace_of (load_sound all_waves "c.wav" player_ab))
    = true.
Proof. by vm_compute. Qed.

(** ** C3 *)

Lemma register_all_callbacks cbs l :
  callbacks (register_all cbs l) = callbacks l ++ cbs.
Proof.
  revert l. induction cbs as [|cb cbs IH]; intros l; simpl.
  - by rewrite app_nil_r.
  - rewrite IH. unfold state_of. simpl. by rewrite <-app_assoc.
Qed.

Lemma dispatch_all_succeed k et cbs (l : BackgroundKeyboardListener) :
  Forall (succeeds k et) cbs →
  for_each cbs (λ cb, invoke cb k et) l
  = (Return (), l, (λ cb, EvCallback (cb_name cb) k et) <$> cbs).
Proof.
  induction 1 as [|cb cbs Hcb _ IH]; simpl; [done|].
  unfold py_bind, invoke at 1, emit, raise, mbind, mret, Py_bind, Py_ret,
    py_bind, py_ret.
  unfold succeeds in Hcb. by rewrite Hcb, IH.
Qed.

Lemma dispatch_first_failure k et pre bad rest e
    (l : BackgroundKeyboardListener) :
  Forall (succeeds k et) pre → cb_body bad k et = Some e →
  for_each (pre ++ bad :: rest) (λ cb, invoke cb k et) l
  = (Raise e, l, (λ cb, EvCallback (cb_name cb) k et) <$> (pre ++ [bad])).
Proof.
  intros Hpre Hbad. induction Hpre as [|cb cbs Hcb _ IH]; simpl.
  - unfold py_bind, invoke, emit, raise, mbind, mret, Py_bind, Py_ret,
      py_bind, py_ret.
    by rewrite Hbad.
  - unfold py_bind, invoke at 1, emit, raise, mbind, mret, Py_bind, Py_ret,
      py_bind, py_ret.
    unfold succeeds in Hcb. by rewrite Hcb, IH.
Qed.

Lemma invoked_callbacks k et (cbs : list callback) :
  invoked ((λ cb, EvCallback (cb_name cb) k et) <$> cbs)
  = call_record k et <$> cbs.
Proof. induction cbs as [|cb cbs IH]; simpl; [done|]. by f_equal. Qed.

(** [_on_press] is the log line followed by the dispatch loop. *)
Lemma on_press_run k l :
  ∃ logged,
    invoked logged = []
    ∧ _on_press k l
      = (let d := for_each (callbacks l) (λ cb, invoke cb k "press") l in
         (result_of d, state_of d, logged ++ trace_of d)).
Proof.
  exists (match logger l with
          | Some _ =>
              [EvLogInfo ("Key pressed: "
                          +:+ match k with
                              | KeyCode c => fmt_char c
                              | SpecialKey _ => key_str k
                              end)]
          | None => []
          end).
  split; [by destruct (logger l)|].
  unfold _on_press, try_except_AttributeError, key_char_attr, emit, get,
    raise, mbind, mret, Py_bind, Py_ret, py_bind, py_ret.
  destruct (for_each (callbacks l) (λ cb, invoke cb k "press") l)
    as [[r l'] t] eqn:Hd.
  destruct k as [c|name], (logger l) as [f|]; simpl; rewrite Hd;
    by destruct r.
Qed.

Lemma invoked_app t1 t2 : invoked (t1 ++ t2) = invoked t1 ++ invoked t2.
Proof. apply omap_app. Qed.

(** The claim as worded fails: with C1, C2, C3 registered in this order and
    C1 raising, one key press calls C1 only and the exception leaves
    [_on_press]; C2 and C3 are never called. *)
Lemma C3_counterexample :
  let l := register_all [cb_first; cb_second; cb_third]
             (BackgroundKeyboardListener_init None) in
  invoked (trace_of (_on_press key_a l)) = [("C1", key_a, "press")]
  ∧ result_of (_on_press key_a l) = Raise (ValueError "boom").
Proof. by vm_compute. Qed.

(** C3 (amended): callbacks are kept and called in registration order, each
    with [(key, 'press')].  If none of them raises, all are called and
    [_on_press] returns.  If one raises, the callbacks registered before it
    have been called, it is the last one called, the callbacks registered
    after it are not called, and its exception leaves [_on_press]. *)
Theorem C3_delivery_in_order_until_failure (log_file : option string)
    (regs : list callback) (k : key) :
  let l := register_all regs (BackgroundKeyboardListener_init log_file) in
  let r := _on_press k l in
  callbacks l = regs
  ∧ (Forall (succeeds k "press") regs →
       result_of r = Return ()
       ∧ invoked (trace_of r) = call_record k "press" <$> regs)
  ∧ (∀ pre bad rest e,
       regs = pre ++ bad :: rest →
       Forall (succeeds k "press") pre → cb_body bad k "press" = Some e →
       result_of r = Raise e
       ∧ invoked (trace_of r) = call_record k "press" <$> (pre ++ [bad])).
Proof.
  intros l r.
  assert (callbacks l = regs) as Hcbs.
  { unfold l. by rewrite register_all_callbacks. }
  destruct (on_press_run k l) as (logged & Hlog & Hrun).
  subst r. rewrite Hrun, Hcbs. clear Hrun.
  unfold result_of, trace_of, state_of. cbn [fst snd].
  split_and!; [done| |].
  - intros Hall. rewrite (dispatch_all_succeed k "press" regs l Hall).
    cbn [fst snd]. split; [done|].
    by rewrite invoked_app, Hlog, invoked_callbacks.
  - intros pre bad rest e -> Hpre Hbad.
    rewrite (dispatch_first_failure k "press" pre bad rest e l Hpre Hbad).
    cbn [fst snd]. split; [done|].
    by rewrite invoked_app, Hlog, invoked_callbacks.
Qed.

Lemma C3_witness :
  let l := register_all [cb_second; cb_third; cb_first; cb_second]
             (BackgroundKeyboardListener_init (Some "keyboard_log.txt")) in
  result_of (_on_press key_a l) = Raise (ValueError "boom")
  ∧ invoked (trace_of (_on_press key_a l))
    = [("C2", key_a, "press"); ("C3", key_a, "press");
       ("C1", key_a, "press")].
Proof.
  destruct (C3_delivery_in_order_until_failure (Some "keyboard_log.txt")
              [cb_second; cb_third; cb_first; cb_second] key_a) as (_ & _ & Hfail).
  apply (Hfail [cb_second; cb_third] cb_first [cb_second] (ValueError "boom")).
  - reflexivity.
  - repeat constructor.
  - reflexivity.
Defined.

(** ** C4 *)

(** The claim as worded fails: when the sound file is missing the process
    ends through [exit()] without an argument, and its exit status is 0. *)
Lemma C4_counterexample :
  result_of (main no_files "/opt/typewriter/listener" App_init)
  = Raise (SystemExit None)
  ∧ exit_status (result_of (main no_files "/opt/typewriter/listener"
                              App_init)) = Some 0.
Proof. by vm_compute. Qed.

(** C4 (amended): in the example entry point, if the initial [load_sound] of
    the configured sound path fails, the program prints "Failed to load
    sound" and terminates through [exit()] with exit status 0; no listener
    has been created and none has been started. *)
Theorem C4_failed_load_exits_before_listening (fs : filesystem)
    (here : string) (Hbad : ∀ w, fs (sound_path here) ≠ Wave w) :
  let r := main fs here App_init in
  result_of r = Raise (SystemExit None)
  ∧ exit_status (result_of r) = Some 0
  ∧ last (trace_of r) = Some (EvPrint "Failed to load sound")
  ∧ (EvListenerJoin ∉ trace_of r)
  ∧ listener (state_of r) = None.
Proof.
  assert (¬ cached (TinyPlayer_init 100) (sound_path here)) as Hunc.
  { unfold cached. simpl. rewrite lookup_empty. by intros [? ?]. }
  destruct (load_sound_unloadable fs (sound_path here) (TinyPlayer_init 100)
              Hunc Hbad) as (t & Hload & Ht).
  unfold main, on_player, zoom, exit, print, emit, raise, mbind, mret,
    Py_bind, Py_ret, py_bind, py_ret.
  cbn [player App_init]. rewrite Hload.
  unfold result_of, trace_of, state_of. cbn.
  split_and!; [done..| | |done].
  - by rewrite last_snoc.
  - intros [Hin|Hin]%elem_of_app.
    + rewrite Forall_forall in Ht. by apply Ht in Hin.
    + by apply list_elem_of_singleton in Hin.
Qed.

Lemma C4_witness :
  exit_status (result_of (main (λ _, Unreadable "not a WAVE file")
                            "/opt/typewriter/listener" App_init)) = Some 0
  ∧ (EvListenerJoin
     ∉ trace_of (main (λ _, Unreadable "not a WAVE file")
                   "/opt/typewriter/listener" App_init)).
Proof.
  assert (∀ w, (λ _ : string, Unreadable "not a WAVE file")
                 (sound_path "/opt/typewriter/listener") ≠ Wave w) as Hbad.
  { intros w. simpl. discriminate. }
  destruct (C4_failed_load_exits_before_listening
              (λ _, Unreadable "not a WAVE file")
              "/opt/typewriter/listener" Hbad) as (_ & Hst & _ & Hnot & _).
  exact (conj Hst Hnot).
Defined.

(** * Further properties of the code *)

(** ** [load_sound]: outcome, stored data, eviction *)

(** X1: on a well-formed player [load_sound] never raises, and it returns
    [True] exactly when the file exists and the path is cached or the file
    is a readable wave; after a [True] the path is cached and is the last
    (most recently used) element of the recency list. *)
Theorem load_sound_succeeds_iff (fs : filesystem) (p : string)
    (self : TinyPlayer) (Hwf : wf self) :
  ∃ b, result_of (load_sound fs p self) = Return b
       ∧ (b = true ↔ fs p ≠ Missing ∧ (cached self p ∨ ∃ w, fs p = Wave w))
       ∧ (b = true →
            cached (state_of (load_sound fs p self)) p
            ∧ last (_cache_keys (state_of (load_sound fs p self))) = Some p).
Proof.
  destruct (load_sound_case fs p self) as
    [ Hfs | ks Hfs Hc Hrm | Hfs Hc Hrm | why Hfs Hc | w Hfs Hc Hfull
    | w oldest ks Hfs Hc Hfull Hks Hold | w oldest ks Hfs Hc Hfull Hks Hold ];
    unfold result_of, state_of, cached; simpl.
  - exists false. split_and!; [done| |done]. split; [done|]. by intros [? _].
  - exists true. split_and!; [done| |]; [by split; eauto|].
    intros _. split; [done|]. by rewrite last_snoc.
  - exfalso. apply (wf_cached _ _ Hwf) in Hc.
    apply list_remove_elem_of in Hc as [ks Hks]. congruence.
  - exists false. split_and!; [done| |done]. split; [done|].
    intros [_ [[v Hv]|[w Hw]]]; congruence.
  - exists true. split_and!; [done| |].
    + split; [|done]. intros _. split; [congruence|]. right. by exists w.
    + intros _. rewrite lookup_insert_eq, last_snoc. by eauto.
  - exists true. split_and!; [done| |].
    + split; [|done]. intros _. split; [congruence|]. right. by exists w.
    + intros _. rewrite lookup_insert_eq, last_snoc. by eauto.
  - exfalso. apply (wf_uncached _ _ Hwf) in Hold. rewrite Hks in Hold.
    set_solver.
Qed.

Lemma load_sound_succeeds_iff_witness :
  result_of (load_sound (λ _, Unreadable "not a WAVE file") "a.wav" player_ab)
  = Return true.
Proof.
  destruct (load_sound_succeeds_iff (λ _, Unreadable "not a WAVE file")
              "a.wav" player_ab player_ab_wf) as (b & Hres & Hiff & _).
  rewrite Hres. f_equal. apply Hiff. split; [done|].
  left. vm_compute. by eexists.
Defined.

(** X2: a load of an uncached readable file reads it once and stores exactly
    the data read under that path; the entries of all other paths, except
    the one evicted, are what they were. *)
Theorem fresh_load_stores_what_was_read (fs : filesystem) (p : string)
    (w : payload) (self : TinyPlayer)
    (Hwf : wf self) (Hunc : ¬ cached self p) (Hw : fs p = Wave w) :
  let r := load_sound fs p self in
  result_of r = Return true
  ∧ _cache (state_of r) !! p = Some w
  ∧ wave_opens (trace_of r) = 1%nat
  ∧ (∀ q, q ≠ p → evicted (trace_of r) ≠ Some q →
          _cache (state_of r) !! q = _cache self !! q).
Proof.
  simpl.
  destruct (load_sound_case fs p self) as
    [ Hfs | ks Hfs Hc Hrm | Hfs Hc Hrm | why Hfs Hc | w' Hfs Hc Hfull
    | w' oldest ks Hfs Hc Hfull Hks Hold
    | w' oldest ks Hfs Hc Hfull Hks Hold ];
    unfold result_of, state_of, trace_of; simpl; try congruence; try done.
  - assert (w' = w) as -> by congruence.
    split_and!; [done| by rewrite lookup_insert_eq |done|].
    intros q Hq _. by rewrite lookup_insert_ne.
  - assert (w' = w) as -> by congruence.
    split_and!; [done| by rewrite lookup_insert_eq |done|].
    intros q Hq Hev. rewrite lookup_insert_ne, lookup_delete_ne by congruence.
    done.
  - exfalso. apply (wf_uncached _ _ Hwf) in Hold. rewrite Hks in Hold.
    set_solver.
Qed.

Lemma fresh_load_stores_what_was_read_witness :
  _cache (state_of (load_sound all_waves "c.wav" player_ab)) !! "c.wav"
  = Some beep
  ∧ _cache (state_of (load_sound all_waves "c.wav" player_ab)) !! "b.wav"
    = _cache player_ab !! "b.wav".
Proof.
  assert (¬ cached player_ab "c.wav") as Hunc.
  { vm_compute. by intros [? ?]. }
  destruct (fresh_load_stores_what_was_read all_waves "c.wav" beep player_ab
              player_ab_wf Hunc eq_refl) as (_ & Hp & _ & Hframe).
  split; [exact Hp|]. apply Hframe; [done|]. vm_compute. congruence.
Defined.

(** X3: with capacity at least 1, a call evicts an entry exactly when it is
    a load of an uncached readable file into a cache that already holds
    [cache_size] entries; hits and failed loads never evict.  The entry
    evicted is the head of the recency list and the number of cached
    entries stays the same. *)
Theorem eviction_exactly_when_full (fs : filesystem) (p : string)
    (self : TinyPlayer) (Hwf : wf self) (HN : 1 ≤ _cache_size self)
    (Hcap : within_capacity self) :
  let r := load_sound fs p self in
  (is_Some (evicted (trace_of r)) ↔
     ¬ cached self p ∧ (∃ w, fs p = Wave w)
     ∧ Z.of_nat (length (_cache_keys self)) = _cache_size self)
  ∧ (∀ e, evicted (trace_of r) = Some e →
          head (_cache_keys self) = Some e
          ∧ size (_cache (state_of r)) = size (_cache self)).
Proof.
  simpl. pose proof (load_sound_wf fs p self Hwf) as Hwf'.
  pose proof (wf_size _ Hwf) as Hsz. pose proof (wf_size _ Hwf') as Hsz'.
  unfold within_capacity in Hcap. revert Hwf' Hsz'.
  destruct (load_sound_case fs p self) as
    [ Hfs | ks Hfs Hc Hrm | Hfs Hc Hrm | why Hfs Hc | w Hfs Hc Hfull
    | w oldest ks Hfs Hc Hfull Hks Hold | w oldest ks Hfs Hc Hfull Hks Hold ];
    unfold state_of, trace_of; simpl; intros Hwf' Hsz'.
  - split; [|done]. split; [by intros [? ?]|]. intros (_ & [w Hw] & _).
    congruence.
  - split; [|done]. split; [by intros [? ?]|]. by intros (Hunc & _).
  - split; [|done]. split; [by intros [? ?]|]. by intros (Hunc & _).
  - split; [|done]. split; [by intros [? ?]|]. intros (_ & [w Hw] & _).
    congruence.
  - split; [|done]. split; [by intros [? ?]|]. intros (_ & _ & Hlen).
    unfold is_full in Hfull. apply andb_false_iff in Hfull as [Hlt|Hnil].
    + apply Z.leb_gt in Hlt. lia.
    + apply bool_decide_eq_false in Hnil.
      destruct (_cache_keys self); [simpl in Hlen; lia | by destruct Hnil].
  - split.
    + split; [|by eauto]. intros _. split_and!.
      * intros [v Hv]. congruence.
      * by exists w.
      * unfold is_full in Hfull. apply andb_true_iff in Hfull as [Hle _].
        apply Z.leb_le in Hle. lia.
    + intros e [= <-]. rewrite Hks. split; [done|].
      rewrite Hsz', Hsz, Hks, length_app. simpl. lia.
  - exfalso. apply (wf_uncached _ _ Hwf) in Hold. rewrite Hks in Hold.
    set_solver.
Qed.

Lemma player_ab_within_capacity : within_capacity player_ab.
Proof. by vm_compute. Qed.

Lemma eviction_exactly_when_full_witness :
  is_Some (evicted (trace_of (load_sound all_waves "c.wav" player_ab)))
  ∧ ¬ is_Some (evicted (trace_of (load_sound all_waves "a.wav" player_ab))).
Proof.
  assert (1 ≤ _cache_size player_ab) as HN by (vm_compute; discriminate).
  split.
  - apply (eviction_exactly_when_full all_waves "c.wav" player_ab
             player_ab_wf HN player_ab_within_capacity).
    split_and!; [vm_compute; by intros [? ?] | by exists beep | done].
  - intros Hev.
    apply (eviction_exactly_when_full all_waves "a.wav" player_ab
             player_ab_wf HN player_ab_within_capacity) in Hev as [Hunc _].
    apply Hunc. vm_compute. by eexists.
Defined.

(** ** The cache holds the most recently used paths *)

Lemma mru_elem_of log q : q ∈ mru log ↔ q ∈ log.
Proof.
  induction log as [|p log IH]; simpl; [done|].
  rewrite !elem_of_cons, list_elem_of_filter, IH.
  destruct (decide (q = p)); naive_solver.
Qed.

Lemma mru_NoDup log : NoDup (mru log).
Proof.
  induction log as [|p log IH]; simpl; [constructor|].
  apply NoDup_cons. split; [|by apply NoDup_filter].
  rewrite list_elem_of_filter. naive_solver.
Qed.

Lemma filter_keeps_all (P : string → Prop) `{∀ x, Decision (P x)}
    (l : list string) :
  Forall P l → filter P l = l.
Proof.
  induction 1 as [|x l Hx _ IH]; [done|].
  by rewrite filter_cons_True, IH.
Qed.

Lemma filter_ne_absent p (l : list string) :
  p ∉ l → filter (λ q, q ≠ p) l = l.
Proof.
  intros Hp. apply filter_keeps_all, Forall_forall. intros x Hx ->. done.
Qed.

Lemma list_remove_filter p l ks :
  NoDup l → list_remove p l = Some ks → ks = filter (λ q, q ≠ p) l.
Proof.
  intros Hnd (l1 & l2 & -> & -> & Hp1)%list_remove_split.
  apply NoDup_app in Hnd as (_ & _ & [Hp2 _]%NoDup_cons).
  rewrite filter_app, filter_cons_False by naive_solver.
  by rewrite !filter_ne_absent.
Qed.

(** Filtering does not disturb a prefix it keeps entirely. *)
Lemma take_filter_prefix p k (m : list string) :
  p ∉ take k m → take k (filter (λ q, q ≠ p) m) = take k m.
Proof.
  revert k. induction m as [|x m IH]; intros [|k]; simpl; try done.
  intros Hp. apply not_elem_of_cons in Hp as [Hne Hp].
  rewrite filter_cons_True by done. simpl. by rewrite IH.
Qed.

(** Removing an element of the first [k+1] leaves [k] of them. *)
Lemma take_filter_member p k (m : list string) :
  NoDup m → p ∈ take (S k) m →
  take k (filter (λ q, q ≠ p) m) = filter (λ q, q ≠ p) (take (S k) m).
Proof.
  revert k. induction m as [|x m IH]; intros k Hnd Hp; simpl in *.
  { by apply elem_of_nil in Hp. }
  apply NoDup_cons in Hnd as [Hx Hnd].
  destruct (decide (x = p)) as [->|Hne].
  - rewrite !filter_cons_False by naive_solver.
    rewrite !filter_ne_absent; [done| |done].
    intros Hin. by apply subseteq_take in Hin.
  - rewrite !filter_cons_True by done.
    apply elem_of_cons in Hp as [->|Hp]; [done|].
    destruct k as [|k]; simpl in *; [by apply elem_of_nil in Hp|].
    f_equal. by apply IH.
Qed.

Lemma load_case_mru fs p self r log n :
  wf self → within_capacity self →
  _cache_size self = Z.of_nat (S n) →
  reverse (_cache_keys self) = take (S n) (mru log) →
  load_case fs p self r →
  reverse (_cache_keys (state_of r))
  = take (S n) (mru (log_access (result_of r) p log)).
Proof.
  intros Hwf Hcap Hsz Hinv Hcase. pose proof Hwf as [_ Hnd].
  unfold within_capacity in Hcap.
  destruct Hcase as
    [ Hfs | ks Hfs Hc Hrm | Hfs Hc Hrm | why Hfs Hc | w Hfs Hc Hfull
    | w oldest ks Hfs Hc Hfull Hks Hold | w oldest ks Hfs Hc Hfull Hks Hold ];
    unfold state_of, result_of; simpl; try done.
  - rewrite reverse_snoc. f_equal.
    rewrite (list_remove_filter p _ ks Hnd Hrm), <-filter_reverse, Hinv.
    symmetry. apply take_filter_member; [apply mru_NoDup|].
    rewrite <-Hinv, elem_of_reverse. by apply wf_cached.
  - pose proof (wf_uncached _ _ Hwf Hc) as Hnin.
    assert (length (_cache_keys self) ≤ n)%nat as Hlen.
    { unfold is_full in Hfull. apply andb_false_iff in Hfull as [Hlt|Hnil].
      - apply Z.leb_gt in Hlt. lia.
      - apply bool_decide_eq_false in Hnil.
        destruct (_cache_keys self); [simpl; lia | by destruct Hnil]. }
    assert (length (mru log) ≤ n)%nat as Hm.
    { apply (f_equal length) in Hinv.
      rewrite length_reverse, length_take in Hinv. lia. }
    rewrite take_ge in Hinv by lia.
    rewrite reverse_snoc, Hinv. f_equal.
    rewrite filter_ne_absent.
    + by rewrite take_ge.
    + by rewrite <-Hinv, elem_of_reverse.
  - pose proof (wf_uncached _ _ Hwf Hc) as Hnin.
    assert (length ks = n) as Hlen.
    { unfold is_full in Hfull. apply andb_true_iff in Hfull as [Hle _].
      apply Z.leb_le in Hle. rewrite Hks in Hle, Hcap. simpl in *. lia. }
    rewrite reverse_snoc. f_equal.
    rewrite Hks, reverse_cons in Hinv.
    rewrite take_filter_prefix.
    + apply (f_equal (take n)) in Hinv.
      rewrite take_app_length', take_take in Hinv
        by (by rewrite length_reverse).
      by replace (n `min` S n)%nat with n in Hinv by lia.
    + intros Hin.
      assert (p ∈ take (S n) (mru log)) as Hin'.
      { apply elem_of_take in Hin as (i & Hi & Hlt).
        apply elem_of_take. exists i. split; [done|lia]. }
      rewrite <-Hinv, <-reverse_cons, elem_of_reverse, <-Hks in Hin'. done.
  - exfalso. apply (wf_uncached _ _ Hwf) in Hold. rewrite Hks in Hold.
    set_solver.
Qed.

Lemma mru_run n calls self log :
  reachable_inv (Z.of_nat (S n)) self log →
  reverse (_cache_keys self) = take (S n) (mru log) →
  reverse (_cache_keys (run_loads calls self log).1)
  = take (S n) (mru (run_loads calls self log).2).
Proof.
  revert self log.
  induction calls as [|[fs p] calls IH]; intros self log Hinv Hm; simpl;
    [done|].
  apply IH.
  - apply reachable_inv_step; [lia|done].
  - destruct Hinv as [Hsz Hwf Hcap _].
    by apply (load_case_mru fs p self _ log n); [..|apply load_sound_case].
Qed.

(** X4: after any sequence of [load_sound] calls on a player built with
    capacity [N >= 1], the recency list read from its end is exactly the
    first [N] of the distinct successfully accessed paths ordered from the
    most recent access, and the cache holds these paths and no others. *)
Theorem cache_is_the_N_most_recent (N : Z) (calls : list call)
    (HN : 1 ≤ N) :
  let self := (run_loads calls (TinyPlayer_init N) []).1 in
  let log := (run_loads calls (TinyPlayer_init N) []).2 in
  reverse (_cache_keys self) = take (Z.to_nat N) (mru log)
  ∧ dom (_cache self) = list_to_set (take (Z.to_nat N) (mru log)).
Proof.
  intros self log.
  destruct (Z.to_nat N) as [|n] eqn:HNn; [lia|].
  assert (N = Z.of_nat (S n)) as -> by lia.
  pose proof (reachable_inv_init (Z.of_nat (S n)) HN) as Hinit.
  pose proof (mru_run n calls _ [] Hinit eq_refl) as Hm.
  pose proof (reachable_inv_run _ calls _ [] HN Hinit) as [_ [Hdom _] _ _].
  fold self log in Hm, Hdom. split; [done|].
  rewrite Hdom, <-Hm. apply set_eq. intros x.
  by rewrite !elem_of_list_to_set, elem_of_reverse.
Qed.

Lemma cache_is_the_N_most_recent_witness :
  let r := run_loads [(all_waves, "a.wav"); (all_waves, "b.wav");
                      (no_files, "d.wav"); (all_waves, "a.wav");
                      (all_waves, "c.wav")] (TinyPlayer_init 2) [] in
  reverse (_cache_keys r.1) = ["c.wav"; "a.wav"]
  ∧ mru r.2 = ["c.wav"; "a.wav"; "b.wav"].
Proof.
  intros r. subst r.
  assert (1 ≤ 2) as H12 by lia.
  pose proof (cache_is_the_N_most_recent 2
    [(all_waves, "a.wav"); (all_waves, "b.wav"); (no_files, "d.wav");
     (all_waves, "a.wav"); (all_waves, "c.wav")] H12) as [Hkeys _].
  cbv zeta in Hkeys.
  split; [|by vm_compute]. rewrite Hkeys. by vm_compute.
Defined.

(** ** Capacities below 1 *)

Lemma is_full_below_one n self :
  _cache_size self ≤ 0 → n = 1 → is_full (with_size n self) = is_full self.
Proof.
  intros Hle ->. unfold is_full, with_size. simpl.
  destruct (_cache_keys self) as [|k ks]; simpl.
  - by rewrite !andb_false_r.
  - f_equal. rewrite (proj2 (Z.leb_le _ _)) by lia.
    by rewrite (proj2 (Z.leb_le _ _)) by lia.
Qed.

Lemma load_sound_with_size n fs p self :
  is_full (with_size n self) = is_full self →
  load_sound fs p (with_size n self)
  = (result_of (load_sound fs p self),
     with_size n (state_of (load_sound fs p self)),
     trace_of (load_sound fs p self)).
Proof.
  intros Hfull_eq.
  destruct (load_sound_case fs p self) as
    [ Hfs | ks Hfs Hc Hrm | Hfs Hc Hrm | why Hfs Hc | w Hfs Hc Hfull
    | w oldest ks Hfs Hc Hfull Hks Hold | w oldest ks Hfs Hc Hfull Hks Hold ];
    unfold result_of, state_of, trace_of; simpl.
  - by rewrite load_sound_missing.
  - by rewrite (load_sound_hit _ _ _ ks).
  - by rewrite load_sound_hit_stale.
  - by rewrite (load_sound_unreadable _ _ _ why).
  - rewrite (load_sound_insert _ _ _ w); [done..|]. by rewrite Hfull_eq.
  - rewrite (load_sound_evict _ _ _ w oldest ks); [done..|by rewrite Hfull_eq| |];
      done.
  - rewrite (load_sound_evict_stale _ _ _ w oldest ks);
      [done..|by rewrite Hfull_eq| |]; done.
Qed.

Lemma run_loads_below_one calls self log :
  _cache_size self ≤ 0 →
  run_loads calls (with_size 1 self) log
  = (with_size 1 (run_loads calls self log).1, (run_loads calls self log).2).
Proof.
  revert self log.
  induction calls as [|[fs p] calls IH]; intros self log Hle; [done|].
  rewrite !run_loads_cons.
  rewrite (load_sound_with_size 1 fs p self)
    by (by apply is_full_below_one).
  unfold state_of at 1, result_of at 1. cbn [fst snd].
  apply IH. by rewrite (load_case_size fs p self _ (load_sound_case fs p self)).
Qed.

(** X5: a player built with [cache_size <= 0] behaves, for every sequence of
    [load_sound] calls, exactly like one built with [cache_size = 1]: the
    same dict, the same recency list, the same calls succeed.  In particular
    it never holds more than one entry, and it does hold one after a
    successful load. *)
Theorem capacity_below_one_acts_as_one (N : Z) (calls : list call)
    (HN : N ≤ 0) :
  let a := run_loads calls (TinyPlayer_init N) [] in
  let b := run_loads calls (TinyPlayer_init 1) [] in
  _cache a.1 = _cache b.1
  ∧ _cache_keys a.1 = _cache_keys b.1
  ∧ a.2 = b.2
  ∧ (length (_cache_keys a.1) ≤ 1)%nat
  ∧ reverse (_cache_keys a.1) = take 1 (mru a.2).
Proof.
  intros a b.
  assert (b = (with_size 1 a.1, a.2)) as Hb.
  { unfold b, a.
    by rewrite <-(run_loads_below_one calls (TinyPlayer_init N) []). }
  assert (1 ≤ 1) as H11 by lia.
  pose proof (reachable_inv_run 1 calls _ [] H11 (reachable_inv_init 1 H11))
    as [Hsz _ Hcap _].
  pose proof (mru_run 0 calls _ [] (reachable_inv_init 1 H11) eq_refl) as Hm.
  fold b in Hsz, Hcap, Hm. unfold within_capacity in Hcap.
  rewrite Hb in Hsz, Hcap, Hm |- *. simpl in *.
  split_and!; [done..|lia|done].
Qed.

Lemma capacity_below_one_acts_as_one_witness :
  _cache_keys
    (run_loads [(all_waves, "a.wav"); (all_waves, "b.wav")]
       (TinyPlayer_init 0) []).1 = ["b.wav"].
Proof.
  assert (0 ≤ 0) as H0 by lia.
  pose proof (capacity_below_one_acts_as_one 0
                [(all_waves, "a.wav"); (all_waves, "b.wav")] H0)
    as (_ & Hkeys & _).
  cbv zeta in Hkeys. rewrite Hkeys. by vm_compute.
Defined.

(** ** The lock *)

Lemma brief_from_app held t1 t2 :
  brief_from held (t1 ++ t2)
  = brief_from held t1 && brief_from (lock_after held t1) t2.
Proof.
  revert held. induction t1 as [|e t1 IH]; intros held; simpl; [done|].
  destruct e; simpl; rewrite ?IH; try done; by rewrite andb_assoc.
Qed.

Lemma lock_after_app held t1 t2 :
  lock_after held (t1 ++ t2) = lock_after (lock_after held t1) t2.
Proof.
  revert held. induction t1 as [|e t1 IH]; intros held; simpl; [done|].
  by destruct e.
Qed.

Lemma unlocked_tail held t :
  Forall (λ e, is_lock_event e = false) t →
  lock_after held t = held ∧ brief_from false t = true.
Proof.
  induction 1 as [|e t He _ [IH1 IH2]]; simpl; [done|].
  by destruct e.
Qed.

Lemma load_case_brief fs p self r :
  load_case fs p self r →
  brief_from false (trace_of r) = true
  ∧ (count is_acquire (trace_of r) ≤ 1)%nat.
Proof. destruct 1; unfold trace_of, count; simpl; split; (done || lia). Qed.

(** ** [play]: composition with [load_sound] and the device protocol *)

Lemma play_cached_eq host fs p self entry :
  _cache self !! p = Some entry →
  play host fs p self = play_stream host entry self.
Proof.
  intros Hv. rewrite play_unfold.
  unfold cache_contains, cache_getitem, get, raise, mbind, mret, Py_bind,
    Py_ret, py_bind, py_ret. simpl.
  rewrite (cache_test_true self p) by (by exists entry). simpl. rewrite Hv.
  by destruct (play_stream host entry self) as [[r s] t].
Qed.

Lemma play_loaded_eq host fs p self st t entry :
  _cache self !! p = None →
  load_sound fs p self = (Return true, st, t) →
  _cache st !! p = Some entry →
  play host fs p self
  = (result_of (play_stream host entry st),
     state_of (play_stream host entry st),
     t ++ trace_of (play_stream host entry st)).
Proof.
  intros Hc Hload Hv. rewrite play_unfold.
  unfold cache_contains, cache_getitem, get, raise, mbind, mret, Py_bind,
    Py_ret, py_bind, py_ret. simpl.
  rewrite (cache_test_false _ _ Hc). simpl. rewrite Hload. simpl. rewrite Hv.
  destruct (play_stream host entry st) as [[r s] t'].
  unfold result_of, state_of, trace_of. simpl. by rewrite app_nil_r.
Qed.

Lemma play_unloaded_eq host fs p self st t :
  _cache self !! p = None →
  load_sound fs p self = (Return false, st, t) →
  play host fs p self = (Return (), st, t).
Proof.
  intros Hc Hload. rewrite play_unfold.
  unfold cache_contains, cache_getitem, get, raise, mbind, mret, Py_bind,
    Py_ret, py_bind, py_ret. simpl.
  rewrite (cache_test_false _ _ Hc). simpl. rewrite Hload. simpl.
  by rewrite !app_nil_r.
Qed.

(** The [try] block of [play], by what the host answers. *)
Lemma play_stream_ok host data channels width rate format self :
  get_format_from_width host width = inr format →
  pa_open host format channels rate = None →
  stream_write host data = None →
  stream_stop_stream host = None → stream_close host = None →
  play_stream host (data, channels, width, rate) self
  = (Return (), self,
     [EvPaOpen format channels rate; EvStreamWrite data; EvStreamStop;
      EvStreamClose]).
Proof.
  intros Hf Ho Hw Hs Hc. unfold play_stream. py_unfold. simpl.
  by rewrite Hf, Ho, Hw, Hs, Hc.
Qed.

Lemma play_stream_write_fails host data channels width rate format msg self :
  get_format_from_width host width = inr format →
  pa_open host format channels rate = None →
  stream_write host data = Some msg →
  play_stream host (data, channels, width, rate) self
  = (Return (), self,
     [EvPaOpen format channels rate; EvStreamWrite data;
      EvPrint ("Error playing sound: " +:+ msg)]).
Proof.
  intros Hf Ho Hw. unfold play_stream. py_unfold. simpl.
  by rewrite Hf, Ho, Hw.
Qed.

Lemma play_stream_open_fails host data channels width rate format msg self :
  get_format_from_width host width = inr format →
  pa_open host format channels rate = Some msg →
  play_stream host (data, channels, width, rate) self
  = (Return (), self,
     [EvPaOpen format channels rate;
      EvPrint ("Error playing sound: " +:+ msg)]).
Proof.
  intros Hf Ho. unfold play_stream. py_unfold. simpl. by rewrite Hf, Ho.
Qed.

Lemma play_stream_bad_width host data channels width rate msg self :
  get_format_from_width host width = inl msg →
  play_stream host (data, channels, width, rate) self
  = (Return (), self, [EvPrint ("Error playing sound: " +:+ msg)]).
Proof.
  intros Hf. unfold play_stream. py_unfold. simpl. by rewrite Hf.
Qed.

Lemma play_stream_events host entry self :
  ∃ t, play_stream host entry self = (Return (), self, t)
       ∧ Forall (λ e, is_device_event e || is_print e = true) t.
Proof.
  destruct entry as [[[data channels] width] rate].
  unfold play_stream. py_unfold. simpl.
  destruct (get_format_from_width host width) as [msg|format]; simpl.
  { eexists. split; [done|]. by repeat constructor. }
  destruct (pa_open host format channels rate) as [msg|]; simpl.
  { eexists. split; [done|]. by repeat constructor. }
  destruct (stream_write host data) as [msg|]; simpl.
  { eexists. split; [done|]. by repeat constructor. }
  destruct (stream_stop_stream host) as [msg|]; simpl.
  { eexists. split; [done|]. by repeat constructor. }
  destruct (stream_close host) as [msg|]; simpl.
  { eexists. split; [done|]. by repeat constructor. }
  eexists. split; [done|]. by repeat constructor.
Qed.

Lemma load_case_no_device fs p self r :
  load_case fs p self r → only is_device_event (trace_of r) = [].
Proof. by destruct 1. Qed.

Lemma only_app P t1 t2 : only P (t1 ++ t2) = only P t1 ++ only P t2.
Proof. apply filter_app. Qed.

Lemma only_all P t : Forall (λ e, P e = true) t → only P t = t.
Proof.
  induction 1 as [|e t He _ IH]; [done|].
  unfold only in *. by rewrite filter_cons_True, IH.
Qed.

Lemma only_none P t : Forall (λ e, P e = false) t → only P t = [].
Proof.
  induction 1 as [|e t He _ IH]; [done|].
  unfold only in *. rewrite filter_cons_False; [done|]. by rewrite He.
Qed.

(** Whenever the path is cached after [play], the call was: what
    [load_sound] did (nothing if the path was cached already), followed by
    the streaming of that entry. *)
Lemma play_decompose host fs p self entry :
  _cache (state_of (play host fs p self)) !! p = Some entry →
  ∃ t_load,
    play host fs p self
    = (Return (), state_of (play host fs p self),
       t_load ++ trace_of (play_stream host entry
                             (state_of (play host fs p self))))
    ∧ only is_device_event t_load = []
    ∧ (cached self p → t_load = [] ∧ state_of (play host fs p self) = self)
    ∧ (¬ cached self p →
         load_sound fs p self
         = (Return true, state_of (play host fs p self), t_load)).
Proof.
  destruct (_cache self !! p) as [v|] eqn:Hc.
  - rewrite (play_cached_eq host fs p self v Hc).
    destruct (play_stream_events host v self) as (t & Hps & _).
    rewrite Hps. unfold state_of, trace_of. simpl. intros Hv.
    assert (entry = v) as -> by congruence.
    exists []. rewrite Hps. simpl. split_and!; [done..|].
    intros Hunc. destruct Hunc. by exists v.
  - pose proof (load_sound_case fs p self) as Hcase.
    inversion Hcase as
      [ Hfs Heq | ks Hfs [? ?] Hrm Heq | Hfs [? ?] Hrm Heq | why Hfs _ Heq
      | w Hfs _ Hfull Heq | w oldest ks Hfs _ Hfull Hks Hold Heq
      | w oldest ks Hfs _ Hfull Hks Hold Heq ];
      symmetry in Heq; try congruence.
    + rewrite (play_unloaded_eq host fs p self _ _ Hc Heq).
      unfold state_of. simpl. congruence.
    + rewrite (play_unloaded_eq host fs p self _ _ Hc Heq).
      unfold state_of. simpl. congruence.
    + rewrite (play_loaded_eq host fs p self _ _ w Hc Heq)
        by (simpl; by rewrite lookup_insert_eq).
      match goal with
      | |- context [play_stream host w ?st] =>
          destruct (play_stream_events host w st) as (t' & Hps & _)
      end.
      rewrite Hps. unfold state_of, trace_of, result_of. simpl.
      rewrite lookup_insert_eq. intros [= <-].
      match type of Heq with _ = (_, _, ?t) => exists t end.
      rewrite Hps. simpl.
      split_and!; [done..| |done]. intros [? ?]. congruence.
    + rewrite (play_loaded_eq host fs p self _ _ w Hc Heq)
        by (simpl; by rewrite lookup_insert_eq).
      match goal with
      | |- context [play_stream host w ?st] =>
          destruct (play_stream_events host w st) as (t' & Hps & _)
      end.
      rewrite Hps. unfold state_of, trace_of, result_of. simpl.
      rewrite lookup_insert_eq. intros [= <-].
      match type of Heq with _ = (_, _, ?t) => exists t end.
      rewrite Hps. simpl.
      split_and!; [done..| |done]. intros [? ?]. congruence.
    + rewrite (play_unloaded_eq host fs p self _ _ Hc Heq).
      unfold state_of. simpl. congruence.
Qed.

Lemma play_cases host fs p self :
  (∃ v, _cache self !! p = Some v
        ∧ play host fs p self = play_stream host v self)
  ∨ (_cache self !! p = None
     ∧ ∃ st t t',
         load_sound fs p self = (Return false, st, t)
         ∧ play host fs p self = (Return (), st, t ++ t') ∧ t' = [])
  ∨ (_cache self !! p = None
     ∧ ∃ st t t',
         load_sound fs p self = (Return true, st, t)
         ∧ play host fs p self = (Return (), st, t ++ t')
         ∧ ∃ v, _cache st !! p = Some v
                ∧ play_stream host v st = (Return (), st, t')).
Proof.
  destruct (_cache self !! p) as [v|] eqn:Hc.
  { left. exists v. split; [done|]. by apply play_cached_eq. }
  right.
  pose proof (load_sound_case fs p self) as Hcase.
  inversion Hcase as
    [ Hfs Heq | ks Hfs [? ?] Hrm Heq | Hfs [? ?] Hrm Heq | why Hfs _ Heq
    | w Hfs _ Hfull Heq | w oldest ks Hfs _ Hfull Hks Hold Heq
    | w oldest ks Hfs _ Hfull Hks Hold Heq ];
    symmetry in Heq; try congruence.
  - left. split; [done|]. eexists _, _, []. split; [first [exact Heq | reflexivity]|].
    by rewrite app_nil_r, (play_unloaded_eq host fs p self _ _ Hc Heq).
  - left. split; [done|]. eexists _, _, []. split; [first [exact Heq | reflexivity]|].
    by rewrite app_nil_r, (play_unloaded_eq host fs p self _ _ Hc Heq).
  - right. split; [done|].
    match type of Heq with _ = (_, ?st, _) =>
      destruct (play_stream_events host w st) as (t' & Hps & _)
    end.
    eexists _, _, t'. split; [first [exact Heq | reflexivity]|].
    rewrite (play_loaded_eq host fs p self _ _ w Hc Heq)
      by (simpl; by rewrite lookup_insert_eq).
    rewrite Hps. split; [done|]. exists w. simpl.
    by rewrite lookup_insert_eq.
  - right. split; [done|].
    match type of Heq with _ = (_, ?st, _) =>
      destruct (play_stream_events host w st) as (t' & Hps & _)
    end.
    eexists _, _, t'. split; [first [exact Heq | reflexivity]|].
    rewrite (play_loaded_eq host fs p self _ _ w Hc Heq)
      by (simpl; by rewrite lookup_insert_eq).
    rewrite Hps. split; [done|]. exists w. simpl.
    by rewrite lookup_insert_eq.
  - left. split; [done|]. eexists _, _, []. split; [first [exact Heq | reflexivity]|].
    by rewrite app_nil_r, (play_unloaded_eq host fs p self _ _ Hc Heq).
Qed.

Lemma stream_events_unlocked t :
  Forall (λ e, is_device_event e || is_print e = true) t →
  Forall (λ e, is_lock_event e = false) t.
Proof. intros H. eapply Forall_impl; [exact H|]. by intros []. Qed.

(** X6: in every call of [load_sound] and of [play], whatever the state of
    the player, the lock is taken at most once by [load_sound], is free again
    when the call ends, and is never held during a file access, a print or a
    call to the audio device. *)
Theorem lock_is_brief_and_released (host : audio_host) (fs : filesystem)
    (p : string) (self : TinyPlayer) :
  let tl := trace_of (load_sound fs p self) in
  let tp := trace_of (play host fs p self) in
  brief_from false tl = true
  ∧ lock_after false tl = false
  ∧ (count is_acquire tl ≤ 1)%nat
  ∧ brief_from false tp = true
  ∧ lock_after false tp = false.
Proof.
  intros tl tp.
  pose proof (load_sound_case fs p self) as Hcase.
  destruct (load_case_brief _ _ _ _ Hcase) as [Hb Hn].
  pose proof (load_case_lock_released _ _ _ _ Hcase) as Hr.
  split_and!; [done..| |]; unfold tp;
    destruct (play_cases host fs p self) as
      [(v & _ & ->) | [(_ & st & t & t' & Hl & -> & ->)
                      | (_ & st & t & t' & Hl & -> & v & _ & Hps)]].
  - destruct (play_stream_events host v self) as (t & -> & Ht).
    by apply (unlocked_tail false), stream_events_unlocked.
  - rewrite Hl in Hb. unfold trace_of in *. simpl in *. by rewrite app_nil_r.
  - rewrite Hl in Hb, Hr. unfold trace_of in *. simpl in *.
    rewrite brief_from_app, Hb, Hr. simpl.
    destruct (play_stream_events host v st) as (t0 & Hps0 & Ht).
    assert (t0 = t') as -> by congruence.
    by apply (unlocked_tail false), stream_events_unlocked.
  - destruct (play_stream_events host v self) as (t & -> & Ht).
    by apply (unlocked_tail false), stream_events_unlocked.
  - rewrite Hl in Hr. unfold trace_of in *. simpl in *. by rewrite app_nil_r.
  - rewrite Hl in Hr. unfold trace_of in *. simpl in *.
    rewrite lock_after_app, Hr.
    destruct (play_stream_events host v st) as (t0 & Hps0 & Ht).
    assert (t0 = t') as -> by congruence.
    by apply (unlocked_tail false), stream_events_unlocked.
Qed.

(** X7: playing a path that is already cached leaves the player exactly as
    it was -- in particular the path is not moved in the recency list -- and
    touches the file system not at all, so the sound plays even when its
    file no longer exists. *)
Theorem play_cached_reads_nothing (host : audio_host) (fs : filesystem)
    (p : string) (self : TinyPlayer) (Hc : cached self p) :
  result_of (play host fs p self) = Return ()
  ∧ state_of (play host fs p self) = self
  ∧ only is_fs_event (trace_of (play host fs p self)) = []
  ∧ ∃ entry, _cache self !! p = Some entry
             ∧ play host fs p self = play_stream host entry self.
Proof.
  destruct Hc as [v Hv]. rewrite (play_cached_eq host fs p self v Hv).
  destruct (play_stream_events host v self) as (t & Hps & Ht).
  rewrite Hps. split_and!; [done..| |by exists v].
  unfold trace_of. simpl. apply only_none.
  eapply Forall_impl; [exact Ht|]. by intros [].
Qed.

Lemma play_cached_reads_nothing_witness :
  state_of (play silent_host no_files "a.wav" player_ab) = player_ab
  ∧ only is_device_event
      (trace_of (play silent_host no_files "a.wav" player_ab))
    = [EvPaOpen 4 1 44100; EvStreamWrite [x52; x49; x46; x46];
       EvStreamStop; EvStreamClose].
Proof.
  assert (cached player_ab "a.wav") as Hc by (vm_compute; by eexists).
  destruct (play_cached_reads_nothing silent_host no_files "a.wav" player_ab
              Hc) as (_ & Hst & _ & _).
  split; [exact Hst | by vm_compute].
Defined.

Lemma play_device_events host fs p self entry :
  _cache (state_of (play host fs p self)) !! p = Some entry →
  only is_device_event (trace_of (play host fs p self))
  = only is_device_event
      (trace_of (play_stream host entry (state_of (play host fs p self)))).
Proof.
  intros Hv.
  destruct (play_decompose host fs p self entry Hv)
    as (t_load & Heq & Hnd & _).
  rewrite Heq at 1. unfold trace_of at 1. simpl.
  by rewrite only_app, Hnd.
Qed.

Lemma last_app_Some {A} (l l' : list A) x :
  last l' = Some x → last (l ++ l') = Some x.
Proof.
  intros Hl. induction l as [|y l IH]; simpl; [done|].
  destruct (l ++ l') eqn:E; [|done].
  apply app_eq_nil in E as [_ ->]. done.
Qed.

(** X8: when the audio host accepts every call, [play] of a cached or
    loadable path talks to the device in exactly four steps: it opens an
    output stream with the format the host derives from the entry's sample
    width and with the entry's channel count and frame rate, writes the
    entry's frames in one call, stops the stream and closes it. *)
Theorem play_streams_the_cached_entry (host : audio_host) (fs : filesystem)
    (p : string) (self : TinyPlayer) (data : list byte)
    (channels width rate format : Z)
    (Hentry : _cache (state_of (play host fs p self)) !! p
              = Some (data, channels, width, rate))
    (Hformat : get_format_from_width host width = inr format)
    (Hopen : pa_open host format channels rate = None)
    (Hwrite : stream_write host data = None)
    (Hstop : stream_stop_stream host = None)
    (Hclose : stream_close host = None) :
  result_of (play host fs p self) = Return ()
  ∧ only is_device_event (trace_of (play host fs p self))
    = [EvPaOpen format channels rate; EvStreamWrite data; EvStreamStop;
       EvStreamClose].
Proof.
  destruct (play_decompose host fs p self _ Hentry) as (t & Heq & _).
  split; [by rewrite Heq|].
  rewrite (play_device_events host fs p self _ Hentry).
  by rewrite (play_stream_ok host data channels width rate format).
Qed.

Lemma play_streams_the_cached_entry_witness :
  only is_device_event
    (trace_of (play silent_host all_waves "c.wav" player_ab))
  = [EvPaOpen 4 1 44100; EvStreamWrite [x52; x49; x46; x46]; EvStreamStop;
     EvStreamClose].
Proof.
  apply (play_streams_the_cached_entry silent_host all_waves "c.wav"
           player_ab [x52; x49; x46; x46] 1 2 44100 4);
    by vm_compute.
Defined.

(** X9: when the stream opens but the write fails, [play] prints the error
    and returns normally, and the stream it opened is neither stopped nor
    closed: the [try] block has no [finally]. *)
Theorem play_failed_write_leaves_stream_open (host : audio_host)
    (fs : filesystem) (p : string) (self : TinyPlayer) (data : list byte)
    (channels width rate format : Z) (msg : string)
    (Hentry : _cache (state_of (play host fs p self)) !! p
              = Some (data, channels, width, rate))
    (Hformat : get_format_from_width host width = inr format)
    (Hopen : pa_open host format channels rate = None)
    (Hwrite : stream_write host data = Some msg) :
  result_of (play host fs p self) = Return ()
  ∧ only is_device_event (trace_of (play host fs p self))
    = [EvPaOpen format channels rate; EvStreamWrite data]
  ∧ last (trace_of (play host fs p self))
    = Some (EvPrint ("Error playing sound: " +:+ msg)).
Proof.
  destruct (play_decompose host fs p self _ Hentry) as (t & Heq & _).
  split; [by rewrite Heq|].
  rewrite (play_device_events host fs p self _ Hentry).
  rewrite Heq at 2.
  rewrite (play_stream_write_fails host data channels width rate format msg)
    by done.
  unfold trace_of. simpl. split; [done|]. by apply last_app_Some.
Qed.

Lemma play_failed_write_leaves_stream_open_witness :
  only is_device_event
    (trace_of (play deaf_host all_waves "a.wav" player_ab))
  = [EvPaOpen 4 1 44100; EvStreamWrite [x52; x49; x46; x46]].
Proof.
  apply (play_failed_write_leaves_stream_open deaf_host all_waves "a.wav"
           player_ab [x52; x49; x46; x46] 1 2 44100 4
           "Unanticipated host error");
    by vm_compute.
Defined.

(** X10: when the host rejects the sample width, [play] makes no device call
    at all; when it cannot open the stream, nothing is written, stopped or
    closed.  In both cases the error is printed and [play] returns
    normally. *)
Theorem play_failed_open_writes_nothing (host : audio_host)
    (fs : filesystem) (p : string) (self : TinyPlayer) (data : list byte)
    (channels width rate : Z)
    (Hentry : _cache (state_of (play host fs p self)) !! p
              = Some (data, channels, width, rate)) :
  (∀ msg, get_format_from_width host width = inl msg →
     result_of (play host fs p self) = Return ()
     ∧ only is_device_event (trace_of (play host fs p self)) = []
     ∧ last (trace_of (play host fs p self))
       = Some (EvPrint ("Error playing sound: " +:+ msg)))
  ∧ (∀ format msg,
       get_format_from_width host width = inr format →
       pa_open host format channels rate = Some msg →
       result_of (play host fs p self) = Return ()
       ∧ only is_device_event (trace_of (play host fs p self))
         = [EvPaOpen format channels rate]
       ∧ last (trace_of (play host fs p self))
         = Some (EvPrint ("Error playing sound: " +:+ msg))).
Proof.
  destruct (play_decompose host fs p self _ Hentry) as (t & Heq & _).
  pose proof (play_device_events host fs p self _ Hentry) as Hdev.
  split.
  - intros msg Hf. split; [by rewrite Heq|]. rewrite Hdev. rewrite Heq at 2.
    rewrite (play_stream_bad_width host data channels width rate msg)
      by done.
    unfold trace_of. simpl. split; [done|]. by apply last_app_Some.
  - intros format msg Hf Ho. split; [by rewrite Heq|].
    rewrite Hdev. rewrite Heq at 2.
    rewrite (play_stream_open_fails host data channels width rate format msg)
      by done.
    unfold trace_of. simpl. split; [done|]. by apply last_app_Some.
Qed.

Lemma play_failed_open_writes_nothing_witness :
  only is_device_event
    (trace_of (play broken_host all_waves "a.wav" player_ab))
  = [EvPaOpen 4 1 44100].
Proof.
  assert (_cache (state_of (play broken_host all_waves "a.wav" player_ab))
          !! "a.wav" = Some ([x52; x49; x46; x46], 1, 2, 44100)) as Hentry
    by (by vm_compute).
  destruct (play_failed_open_writes_nothing broken_host all_waves "a.wav"
              player_ab _ _ _ _ Hentry) as [_ Hopen].
  by destruct (Hopen 4 "Invalid output device" eq_refl eq_refl)
    as (_ & Hdev & _).
Defined.

Lemma fresh_load_run fs p w self :
  wf self → _cache self !! p = None → fs p = Wave w →
  ∃ st t, load_sound fs p self = (Return true, st, t)
          ∧ _cache st !! p = Some w ∧ wave_opens t = 1%nat.
Proof.
  intros Hwf Hnone Hw.
  destruct (load_sound_case fs p self) as
    [ Hfs | ks Hfs [? ?] Hrm | Hfs [? ?] Hrm | why Hfs Hc | w' Hfs Hc Hfull
    | w' oldest ks Hfs Hc Hfull Hks Hold
    | w' oldest ks Hfs Hc Hfull Hks Hold ]; try congruence.
  - assert (w' = w) as -> by congruence.
    eexists _, _. split_and!; [done| |done]. simpl. by rewrite lookup_insert_eq.
  - assert (w' = w) as -> by congruence.
    eexists _, _. split_and!; [done| |done]. simpl. by rewrite lookup_insert_eq.
  - exfalso. apply (wf_uncached _ _ Hwf) in Hold. rewrite Hks in Hold.
    set_solver.
Qed.

Lemma wave_opens_app t1 t2 :
  wave_opens (t1 ++ t2) = (wave_opens t1 + wave_opens t2)%nat.
Proof. unfold wave_opens. by rewrite filter_app, length_app. Qed.

Lemma stream_events_no_fs t :
  Forall (λ e, is_device_event e || is_print e = true) t →
  wave_opens t = 0%nat ∧ only is_fs_event t = [].
Proof.
  induction 1 as [|e t He _ [IH1 IH2]]; [done|].
  unfold wave_opens, only in *. by destruct e.
Qed.

(** X11: [play] of an uncached readable file does what [load_sound] does --
    the file is read once and the path becomes the most recently used entry
    -- and a second [play] of the same path, whatever has happened to the
    file meanwhile, changes nothing in the player and does not touch the file
    system. *)
Theorem play_loads_once (host1 host2 : audio_host) (fs1 fs2 : filesystem)
    (p : string) (w : payload) (self : TinyPlayer)
    (Hwf : wf self) (Hunc : ¬ cached self p) (Hw : fs1 p = Wave w) :
  let r1 := play host1 fs1 p self in
  let r2 := play host2 fs2 p (state_of r1) in
  result_of r1 = Return ()
  ∧ state_of r1 = state_of (load_sound fs1 p self)
  ∧ _cache (state_of r1) !! p = Some w
  ∧ wave_opens (trace_of r1) = 1%nat
  ∧ result_of r2 = Return ()
  ∧ state_of r2 = state_of r1
  ∧ only is_fs_event (trace_of r2) = [].
Proof.
  intros r1 r2.
  assert (_cache self !! p = None) as Hnone.
  { destruct (_cache self !! p) eqn:E; [|done]. destruct Hunc. by eexists. }
  destruct (fresh_load_run fs1 p w self Hwf Hnone Hw)
    as (st & t & Hload & Hstored & Hopens).
  destruct (play_stream_events host1 w st) as (t1 & Hps1 & Ht1).
  destruct (play_stream_events host2 w st) as (t2 & Hps2 & Ht2).
  assert (r1 = (Return (), st, t ++ t1)) as Hr1.
  { unfold r1.
    by rewrite (play_loaded_eq host1 fs1 p self st t w Hnone Hload Hstored),
      Hps1. }
  assert (r2 = (Return (), st, t2)) as Hr2.
  { unfold r2. rewrite Hr1. unfold state_of. simpl.
    by rewrite (play_cached_eq host2 fs2 p st w Hstored). }
  rewrite Hr1, Hr2, Hload. unfold result_of, state_of, trace_of. simpl.
  split_and!; try done.
  - rewrite wave_opens_app, Hopens.
    by rewrite (proj1 (stream_events_no_fs t1 Ht1)).
  - by apply stream_events_no_fs.
Qed.

Lemma play_loads_once_witness :
  wave_opens (trace_of (play silent_host all_waves "c.wav" player_ab)) = 1%nat
  ∧ only is_fs_event
      (trace_of (play silent_host no_files "c.wav"
                   (state_of (play silent_host all_waves "c.wav" player_ab))))
    = [].
Proof.
  assert (¬ cached player_ab "c.wav") as Hunc.
  { vm_compute. by intros [? ?]. }
  destruct (play_loads_once silent_host silent_host all_waves no_files
              "c.wav" beep player_ab player_ab_wf Hunc eq_refl)
    as (_ & _ & _ & Hopens & _ & _ & Hfs).
  exact (conj Hopens Hfs).
Defined.

(** ** The example block of player.py *)











(** ** The entry point of main.py when the sound loads *)



(** ** The key handlers *)

Lemma dispatch_run k et cbs (l : BackgroundKeyboardListener) :
  ∃ r n, for_each cbs (λ cb, invoke cb k et) l
         = (r, l, (λ cb, EvCallback (cb_name cb) k et) <$> take n cbs).
Proof.
  induction cbs as [|cb cbs (r & n & IH)]; simpl.
  { by exists (Return ()), 0%nat. }
  unfold py_bind, invoke at 1, emit, raise, mbind, mret, Py_bind, Py_ret,
    py_bind, py_ret.
  destruct (cb_body cb k et) as [e|].
  - by exists (Raise e), 1%nat.
  - rewrite IH. by exists r, (S n).
Qed.

Lemma on_press_eq k l :
  _on_press k l
  = (result_of (for_each (callbacks l) (λ cb, invoke cb k "press") l),
     state_of (for_each (callbacks l) (λ cb, invoke cb k "press") l),
     log_line "Key pressed: " k l
     ++ trace_of (for_each (callbacks l) (λ cb, invoke cb k "press") l)).
Proof.
  unfold _on_press, log_line, try_except_AttributeError, key_char_attr, emit,
    get, raise, mbind, mret, Py_bind, Py_ret, py_bind, py_ret.
  destruct (for_each (callbacks l) (λ cb, invoke cb k "press") l)
    as [[r l'] t] eqn:Hd.
  destruct k as [c|name], (logger l) as [f|]; simpl; rewrite Hd;
    by destruct r.
Qed.

Lemma on_release_eq k l :
  _on_release k l
  = (result_of (for_each (callbacks l) (λ cb, invoke cb k "release") l),
     state_of (for_each (callbacks l) (λ cb, invoke cb k "release") l),
     log_line "Key released: " k l
     ++ trace_of (for_each (callbacks l) (λ cb, invoke cb k "release") l)).
Proof.
  unfold _on_release, log_line, try_except_AttributeError, key_char_attr,
    emit, get, raise, mbind, mret, Py_bind, Py_ret, py_bind, py_ret.
  destruct (for_each (callbacks l) (λ cb, invoke cb k "release") l)
    as [[r l'] t] eqn:Hd.
  destruct k as [c|name], (logger l) as [f|]; simpl; rewrite Hd;
    by destruct r.
Qed.

Lemma only_log_callbacks k et (cbs : list callback) :
  only is_log ((λ cb, EvCallback (cb_name cb) k et) <$> cbs) = [].
Proof.
  apply only_none, Forall_forall. intros e (cb & -> & _)%list_elem_of_fmap.
  done.
Qed.

Lemma only_log_line prefix k l :
  only is_log (log_line prefix k l) = log_line prefix k l.
Proof. unfold log_line. by destruct (logger l). Qed.

(** X14: handling a key never changes the listener.  With logging on, the
    handler writes exactly one log line, before any callback is called:
    "Key pressed: " (or "Key released: ") followed by the key's character,
    or by [Key.<name>] for a key without a [char] attribute, whose
    [AttributeError] is absorbed.  With logging off it writes none.  After
    the log line come the calls of a prefix of the registered callbacks. *)
Theorem handlers_log_then_dispatch (k : key)
    (l : BackgroundKeyboardListener) :
  (state_of (_on_press k l) = l
   ∧ only is_log (trace_of (_on_press k l)) = log_line "Key pressed: " k l
   ∧ ∃ n, trace_of (_on_press k l)
          = log_line "Key pressed: " k l
            ++ ((λ cb, EvCallback (cb_name cb) k "press")
                  <$> take n (callbacks l)))
  ∧ (state_of (_on_release k l) = l
     ∧ only is_log (trace_of (_on_release k l))
       = log_line "Key released: " k l
     ∧ ∃ n, trace_of (_on_release k l)
            = log_line "Key released: " k l
              ++ ((λ cb, EvCallback (cb_name cb) k "release")
                    <$> take n (callbacks l)))
  ∧ (logger l = None →
     only is_log (trace_of (_on_press k l)) = []
     ∧ only is_log (trace_of (_on_release k l)) = [])
  ∧ (∀ name f, k = SpecialKey name → logger l = Some f →
     head (trace_of (_on_press k l))
     = Some (EvLogInfo ("Key pressed: Key." +:+ name))).
Proof.
  rewrite on_press_eq, on_release_eq.
  destruct (dispatch_run k "press" (callbacks l) l) as (r1 & n1 & ->).
  destruct (dispatch_run k "release" (callbacks l) l) as (r2 & n2 & ->).
  unfold state_of, trace_of. simpl.
  rewrite !only_app, !only_log_callbacks, !only_log_line, !app_nil_r.
  split_and!; try done; try by eexists.
  - intros Hnone. unfold log_line. by rewrite Hnone.
  - intros name f -> Hlog. unfold log_line. by rewrite Hlog.
Qed.

Lemma handlers_log_then_dispatch_witness :
  head (trace_of (_on_press (SpecialKey "enter")
                    (BackgroundKeyboardListener_init (Some "log.txt"))))
  = Some (EvLogInfo "Key pressed: Key.enter")
  ∧ only is_log
      (trace_of (_on_press (SpecialKey "enter")
                   (BackgroundKeyboardListener_init None))) = [].
Proof.
  destruct (handlers_log_then_dispatch (SpecialKey "enter")
              (BackgroundKeyboardListener_init (Some "log.txt")))
    as (_ & _ & _ & Hhead).
  destruct (handlers_log_then_dispatch (SpecialKey "enter")
              (BackgroundKeyboardListener_init None))
    as (_ & _ & Hoff & _).
  split.
  - exact (Hhead "enter" "log.txt" eq_refl eq_refl).
  - exact (proj1 (Hoff eq_refl)).
Defined.

(** X15: [_on_release] delivers like [_on_press], with ['release']: the
    registered callbacks are called in order with [(key, 'release')]; if
    none raises all are called and the handler returns; if one raises, the
    ones before it have been called, the ones after it are not, and the
    exception leaves the handler. *)
Theorem on_release_delivers_until_failure (k : key)
    (l : BackgroundKeyboardListener) :
  (Forall (succeeds k "release") (callbacks l) →
     result_of (_on_release k l) = Return ()
     ∧ invoked (trace_of (_on_release k l))
       = call_record k "release" <$> callbacks l)
  ∧ (∀ pre bad rest e,
       callbacks l = pre ++ bad :: rest →
       Forall (succeeds k "release") pre →
       cb_body bad k "release" = Some e →
       result_of (_on_release k l) = Raise e
       ∧ invoked (trace_of (_on_release k l))
         = call_record k "release" <$> (pre ++ [bad])).
Proof.
  assert (invoked (log_line "Key released: " k l) = []) as Hlog.
  { unfold log_line. by destruct (logger l). }
  rewrite on_release_eq. unfold result_of, trace_of. cbn [fst snd]. split.
  - intros Hall. rewrite (dispatch_all_succeed k "release" _ l Hall).
    cbn [fst snd]. split; [done|].
    by rewrite invoked_app, Hlog, invoked_callbacks.
  - intros pre bad rest e Hcbs Hpre Hbad. rewrite Hcbs.
    rewrite (dispatch_first_failure k "release" pre bad rest e l Hpre Hbad).
    cbn [fst snd]. split; [done|].
    by rewrite invoked_app, Hlog, invoked_callbacks.
Qed.

Lemma on_release_delivers_until_failure_witness :
  let l := register_all [cb_second; cb_first; cb_third]
             (BackgroundKeyboardListener_init None) in
  result_of (_on_release key_a l) = Raise (ValueError "boom")
  ∧ invoked (trace_of (_on_release key_a l))
    = [("C2", key_a, "release"); ("C1", key_a, "release")].
Proof.
  intros l.
  destruct (on_release_delivers_until_failure key_a l) as [_ Hfail].
  apply (Hfail [cb_second] cb_first [cb_third] (ValueError "boom")).
  - reflexivity.
  - repeat constructor.
  - reflexivity.
Defined.

(** ** The listener's life cycle *)

Lemma start_eq (self : listener_object) :
  Lifecycle.start self
  = if running (attrs self) then (Return (), self, [])
    else (Return (),
          {| attrs := {| running := true;
                         callbacks := callbacks (attrs self);
                         logger := logger (attrs self) |};
             handle := Some {| stop_calls := 0 |} |},
          [EvListenerJoin]).
Proof.
  unfold Lifecycle.start, set_running, emit, get, put, mbind, mret, Py_bind,
    Py_ret, py_bind, py_ret.
  by destruct (running (attrs self)).
Qed.

Lemma stop_eq (self : listener_object) :
  Lifecycle.stop self
  = if running (attrs self)
    then (Return (),
          {| attrs := {| running := false;
                         callbacks := callbacks (attrs self);
                         logger := logger (attrs self) |};
             handle := match handle self with
                       | Some h => Some {| stop_calls := S (stop_calls h) |}
                       | None => None
                       end |},
          match logger (attrs self) with
          | Some _ => [EvLogInfo "Keyboard listener stopped"]
          | None => []
          end)
    else (Return (), self, []).
Proof.
  unfold Lifecycle.stop, set_running, emit, get, put, mbind, mret, Py_bind,
    Py_ret, py_bind, py_ret.
  destruct (running (attrs self)); simpl; [|done].
  by destruct (handle self), (logger (attrs self)).
Qed.

Lemma add_eq cb (self : listener_object) :
  Lifecycle.add_callback cb self
  = (Return (),
     {| attrs := {| running := running (attrs self);
                    callbacks := callbacks (attrs self) ++ [cb];
                    logger := logger (attrs self) |};
        handle := handle self |},
     []).
Proof. reflexivity. Qed.

Lemma run_op_effect o (self : listener_object) :
  ∃ self' t,
    run_op o self = (Return (), self', t)
    ∧ running (attrs self') = running_after (running (attrs self)) [o]
    ∧ callbacks (attrs self') = callbacks (attrs self) ++ added [o]
    ∧ logger (attrs self') = logger (attrs self).
Proof.
  destruct o as [| |cb]; simpl.
  - rewrite start_eq. destruct (running (attrs self)) eqn:Hr;
      eexists _, _; split_and!; try done; simpl; by rewrite ?app_nil_r.
  - rewrite stop_eq. destruct (running (attrs self)) eqn:Hr;
      eexists _, _; split_and!; try done; simpl; by rewrite ?app_nil_r.
  - rewrite add_eq. by eexists _, _.
Qed.

(** X16: for every sequence of [start], [stop] and [add_callback] on a
    listener, no call raises; afterwards [is_running()] tells whether the
    last of the [start]/[stop] calls was a [start] (or what it told before,
    if there was none); the callbacks are the earlier ones followed by the
    added ones in order -- starting and stopping never drop or reorder
    callbacks; and the logging setting is unchanged. *)
Theorem lifecycle_follows_last_request (ops : list lifecycle_op)
    (self : listener_object) :
  let r := for_each ops run_op self in
  result_of r = Return ()
  ∧ Lifecycle.is_running (state_of r)
    = (Return (running_after (running (attrs self)) ops), state_of r, [])
  ∧ callbacks (attrs (state_of r)) = callbacks (attrs self) ++ added ops
  ∧ logger (attrs (state_of r)) = logger (attrs self).
Proof.
  simpl. revert self. induction ops as [|o ops IH]; intros self.
  { unfold result_of, state_of. simpl. by rewrite app_nil_r. }
  destruct (run_op_effect o self) as (self' & t & Hrun & Hr & Hc & Hl).
  destruct (IH self') as (IHres & IHrun & IHc & IHl).
  assert (for_each (o :: ops) run_op self
          = (result_of (for_each ops run_op self'),
             state_of (for_each ops run_op self'),
             t ++ trace_of (for_each ops run_op self'))) as ->.
  { simpl. unfold py_bind. rewrite Hrun.
    by destruct (for_each ops run_op self') as [[? ?] ?]. }
  unfold result_of, state_of, trace_of in *. cbn [fst snd] in *.
  split_and!.
  - done.
  - rewrite IHrun. do 3 f_equal. rewrite Hr. by destruct o.
  - rewrite IHc, Hc, <-app_assoc. f_equal. by destruct o.
  - by rewrite IHl.
Qed.

(** X17: [stop] on a listener that is not running, and [start] on one that
    is, do nothing at all; hence a second [stop] (or [start]) in a row is a
    no-op.  A [stop] on a running listener clears the flag, calls [stop()]
    once on the pynput listener if there is one, and writes "Keyboard
    listener stopped" exactly when logging is on; a [start] on a stopped
    listener creates a fresh pynput listener and enters it. *)
Theorem stop_and_start_guards (self : listener_object) :
  (Lifecycle.stop (state_of (Lifecycle.stop self))
   = (Return (), state_of (Lifecycle.stop self), [])
   ∧ Lifecycle.start (state_of (Lifecycle.start self))
     = (Return (), state_of (Lifecycle.start self), []))
  ∧ (running (attrs self) = false →
       Lifecycle.stop self = (Return (), self, [])
       ∧ handle (state_of (Lifecycle.start self))
         = Some {| stop_calls := 0 |}
       ∧ trace_of (Lifecycle.start self) = [EvListenerJoin])
  ∧ (running (attrs self) = true →
       Lifecycle.start self = (Return (), self, [])
       ∧ running (attrs (state_of (Lifecycle.stop self))) = false
       ∧ (∀ h, handle self = Some h →
            handle (state_of (Lifecycle.stop self))
            = Some {| stop_calls := S (stop_calls h) |})
       ∧ trace_of (Lifecycle.stop self)
         = match logger (attrs self) with
           | Some _ => [EvLogInfo "Keyboard listener stopped"]
           | None => []
           end).
Proof.
  split_and!.
  - rewrite (stop_eq self).
    destruct (running (attrs self)) eqn:Hr; unfold state_of; simpl;
      rewrite stop_eq; simpl; by rewrite ?Hr.
  - rewrite (start_eq self).
    destruct (running (attrs self)) eqn:Hr; unfold state_of; simpl;
      rewrite start_eq; simpl; by rewrite ?Hr.
  - intros Hr. by rewrite stop_eq, start_eq, Hr.
  - intros Hr. rewrite stop_eq, start_eq, Hr. split_and!; try done.
    by intros h ->.
Qed.

Lemma stop_and_start_guards_witness :
  running (attrs (state_of (Lifecycle.stop started_listener))) = false
  ∧ handle (state_of (Lifecycle.stop started_listener))
    = Some {| stop_calls := 1 |}
  ∧ trace_of (Lifecycle.stop started_listener)
    = [EvLogInfo "Keyboard listener stopped"]
  ∧ Lifecycle.stop (Lifecycle.init None) = (Return (), Lifecycle.init None, []).
Proof.
  destruct (stop_and_start_guards started_listener) as (_ & _ & Hrun).
  destruct (stop_and_start_guards (Lifecycle.init None)) as (_ & Hidle & _).
  destruct (Hrun eq_refl) as (_ & Hflag & Hhandle & Htrace).
  destruct (Hidle eq_refl) as (Hnoop & _).
  split_and!; [exact Hflag | exact (Hhandle _ eq_refl) | exact Htrace
              | exact Hnoop].
Defined.

(** ** Reloading the most recently used path *)

Lemma list_remove_last p ks :
  p ∉ ks → list_remove p (ks ++ [p]) = Some ks.
Proof.
  induction ks as [|y ks IH]; intros Hp; simpl.
  - by rewrite decide_True.
  - apply not_elem_of_cons in Hp as [Hne Hp].
    rewrite decide_False by done. by rewrite IH.
Qed.

(** X18: on a well-formed player, [load_sound] of the path that is already
    the most recently used one, while its file exists, returns [True] and
    leaves the player exactly as it was (the path is removed from the end of
    the recency list and put back there). *)
Theorem reloading_most_recent_changes_nothing (fs : filesystem) (p : string)
    (self : TinyPlayer) (Hwf : wf self) (Hexists : fs p ≠ Missing)
    (Hlast : last (_cache_keys self) = Some p) :
  result_of (load_sound fs p self) = Return true
  ∧ state_of (load_sound fs p self) = self.
Proof.
  apply last_Some in Hlast as [ks Hks].
  assert (p ∉ ks) as Hp.
  { destruct Hwf as [_ Hnd]. rewrite Hks in Hnd.
    apply NoDup_app in Hnd as (_ & Hd & _). intros Hin.
    apply (Hd p Hin). by apply list_elem_of_singleton. }
  assert (cached self p) as Hc.
  { apply (wf_cached _ _ Hwf). rewrite Hks. set_solver. }
  rewrite (load_sound_hit fs p self ks); [|done|done|].
  - unfold result_of, state_of, set_cache_keys. simpl. split; [done|].
    rewrite <-Hks. by destruct self.
  - rewrite Hks. by apply list_remove_last.
Qed.

Lemma reloading_most_recent_changes_nothing_witness :
  state_of (load_sound all_waves "b.wav" player_ab) = player_ab.
Proof.
  assert (all_waves "b.wav" ≠ Missing) as Hex by (vm_compute; discriminate).
  assert (last (_cache_keys player_ab) = Some "b.wav") as Hlast
    by (by vm_compute).
  exact (proj2 (reloading_most_recent_changes_nothing all_waves "b.wav"
                  player_ab player_ab_wf Hex Hlast)).
Defined.
